(** * tree-command: a shallow embedding of [src/main.rs] in Rocq

    The program walks a directory with [walkdir], groups the entries by
    their parent path in a [HashMap<PathBuf, Vec<DirEntry>>], sorts every
    group and prints the tree with box-drawing prefixes, annotating each
    file with the first comment line of its contents.

    Data as the code has it:
    - a Rust [String] / [&str] is its sequence of Unicode scalar values
      ([ustring = list N]); [String]'s [Ord] is the byte order of the
      UTF-8 encoding, which is the code-point order, so [ustr_cmp] is the
      lexicographic order on code points;
    - an [OsStr] file name is a byte string: a Rocq [string] (8-bit
      [ascii] characters), decoded by [to_str] / [to_string_lossy];
    - a canonical absolute path is its list of components, [[]] is [/];
    - the file system is a tree of [node]s read in directory order. *)

From Stdlib Require Import Sorting.Sorted Sorting.Permutation Strings.Ascii.
From Stdlib Require Strings.String.
From stdpp Require Import base list gmap strings fin_maps.
Open Scope N_scope.

(* ================================================================= *)
(** ** Rust strings *)

Abbreviation ustring := (list N).

(** ASCII literal as a [ustring]. *)
Definition u (s : string) : ustring := map N_of_ascii (String.list_ascii_of_string s).

(** [Ord for str]: lexicographic, a proper prefix is smaller. *)
Fixpoint ustr_cmp (a b : ustring) : comparison :=
  match a, b with
  | [], [] => Eq
  | [], _ :: _ => Lt
  | _ :: _, [] => Gt
  | x :: a', y :: b' =>
      match N.compare x y with
      | Eq => ustr_cmp a' b'
      | c => c
      end
  end.

(** [char::is_whitespace]: the Unicode White_Space property. *)
Definition is_whitespace (c : N) : bool :=
  ((9 <=? c) && (c <=? 13)) || (c =? 32) || (c =? 0x85) || (c =? 0xA0)
  || (c =? 0x1680) || ((0x2000 <=? c) && (c <=? 0x200A))
  || (c =? 0x2028) || (c =? 0x2029) || (c =? 0x202F) || (c =? 0x205F)
  || (c =? 0x3000).

(** [str::trim_start_matches(pred)]. *)
Fixpoint trim_start_matches (pred : N -> bool) (s : ustring) : ustring :=
  match s with
  | [] => []
  | c :: s' => if pred c then trim_start_matches pred s' else s
  end.

(** [str::trim]: whitespace removed at both ends. *)
Definition trim (s : ustring) : ustring :=
  rev (trim_start_matches is_whitespace (rev (trim_start_matches is_whitespace s))).

(** [str::starts_with(pat)] for a string pattern. *)
Fixpoint starts_with (pat s : ustring) : bool :=
  match pat, s with
  | [], _ => true
  | p :: pat', c :: s' => (p =? c) && starts_with pat' s'
  | _ :: _, [] => false
  end.

(* ================================================================= *)
(** ** [OsStr] decoding: [to_str] and [to_string_lossy]

    One step of [core::str::Utf8Chunks]: at a lead byte [b0] followed by
    [rest], either a well-formed character (its code point and width in
    bytes) or an ill-formed sequence of [k] bytes (the maximal prefix of a
    well-formed one, at least one byte).  A byte past the end reads as 0
    ([safe_get]). *)

Definition is_cont (b : N) : bool := (0x80 <=? b) && (b <=? 0xBF).

Definition utf8_char_width (b : N) : nat :=
  if b <? 0x80 then 1%nat
  else if (0xC2 <=? b) && (b <=? 0xDF) then 2%nat
  else if (0xE0 <=? b) && (b <=? 0xEF) then 3%nat
  else if (0xF0 <=? b) && (b <=? 0xF4) then 4%nat
  else 0%nat.

Definition in_range (lo hi b : N) : bool := (lo <=? b) && (b <=? hi).

Definition second_ok3 (b0 b1 : N) : bool :=
  ((b0 =? 0xE0) && in_range 0xA0 0xBF b1)
  || (in_range 0xE1 0xEC b0 && in_range 0x80 0xBF b1)
  || ((b0 =? 0xED) && in_range 0x80 0x9F b1)
  || (in_range 0xEE 0xEF b0 && in_range 0x80 0xBF b1).

Definition second_ok4 (b0 b1 : N) : bool :=
  ((b0 =? 0xF0) && in_range 0x90 0xBF b1)
  || (in_range 0xF1 0xF3 b0 && in_range 0x80 0xBF b1)
  || ((b0 =? 0xF4) && in_range 0x80 0x8F b1).

Definition low6 (b : N) : N := N.land b 0x3F.

Definition utf8_next (b0 : N) (rest : list N) : (N * nat) + nat :=
  let get i := nth i rest 0 in
  match utf8_char_width b0 with
  | 1%nat => inl (b0, 1%nat)
  | 2%nat =>
      if is_cont (get 0%nat)
      then inl (N.lor (N.shiftl (N.land b0 0x1F) 6) (low6 (get 0%nat)), 2%nat)
      else inr 1%nat
  | 3%nat =>
      if second_ok3 b0 (get 0%nat) then
        if is_cont (get 1%nat)
        then inl (N.lor (N.shiftl (N.land b0 0x0F) 12)
                   (N.lor (N.shiftl (low6 (get 0%nat)) 6) (low6 (get 1%nat))), 3%nat)
        else inr 2%nat
      else inr 1%nat
  | 4%nat =>
      if second_ok4 b0 (get 0%nat) then
        if is_cont (get 1%nat) then
          if is_cont (get 2%nat)
          then inl (N.lor (N.shiftl (N.land b0 0x07) 18)
                     (N.lor (N.shiftl (low6 (get 0%nat)) 12)
                       (N.lor (N.shiftl (low6 (get 1%nat)) 6) (low6 (get 2%nat)))), 4%nat)
          else inr 3%nat
        else inr 2%nat
      else inr 1%nat
  | _ => inr 1%nat
  end.

(** The decoded characters; [None] stands for one ill-formed sequence.
    Every step consumes at least one byte, so [length] is enough fuel. *)
Fixpoint utf8_chunks (fuel : nat) (bs : list N) : list (option N) :=
  match fuel, bs with
  | _, [] => []
  | O, _ :: _ => []
  | S f, b0 :: rest =>
      match utf8_next b0 rest with
      | inl (c, w) => Some c :: utf8_chunks f (drop (w - 1) rest)
      | inr k => None :: utf8_chunks f (drop (k - 1) rest)
      end
  end.

Definition os_bytes (s : string) : list N := map N_of_ascii (String.list_ascii_of_string s).

Definition decode (s : string) : list (option N) :=
  utf8_chunks (length (os_bytes s)) (os_bytes s).

(** [OsStr::to_str]: [Some] exactly when the bytes are valid UTF-8. *)
Definition to_str (s : string) : option ustring := mapM id (decode s).

(** [OsStr::to_string_lossy]: U+FFFD for every ill-formed sequence. *)
Definition to_string_lossy (s : string) : ustring := map (default 0xFFFD) (decode s).

(* ================================================================= *)
(** ** Paths, directory entries and the file system *)

(** A canonical absolute path: its components, [[]] being [/]. *)
Abbreviation path := (list string).

(** [Path::parent]: [None] for [/]. *)
Definition parent (p : path) : option path :=
  match p with
  | [] => None
  | _ :: _ => Some (removelast p)
  end.

(** [walkdir::DirEntry::file_name]: [path.file_name()], or the whole path
    when it has no last component ([/]). *)
Definition file_name (p : path) : string :=
  match last p with
  | Some x => x
  | None => "/"%string
  end.

(** A file system object as [read_dir] and [File::open] see it.
    - [NFile name lines]: [lines = None] when [File::open] fails, otherwise
      the items of [BufReader::lines()], [None] for an [Err] item;
    - [NDir name children]: [children = None] when [read_dir] fails,
      otherwise the entries in directory order;
    - [NBad]: a directory-listing item that comes back as an [Err].
    Symbolic links are not represented, and the metadata of a listed
    object is assumed readable. *)
#[local] Set Warnings "-register-all".

Inductive node : Type :=
  | NFile (name : string) (lines : option (list (option ustring)))
  | NDir (name : string) (children : option (list node))
  | NBad.

Definition node_name (n : node) : string :=
  match n with
  | NFile nm _ | NDir nm _ => nm
  | NBad => ""%string
  end.

Definition child_named (x : string) (n : node) : bool :=
  match n with
  | NBad => false
  | _ => bool_decide (node_name n = x)
  end.

(** Resolving a path from the file-system root [fs] ([/]). *)
Fixpoint lookup_node (n : node) (p : path) : option node :=
  match p with
  | [] => Some n
  | x :: r =>
      match n with
      | NDir _ (Some cs) =>
          match List.find (child_named x) cs with
          | Some c => lookup_node c r
          | None => None
          end
      | _ => None
      end
  end.

(** [walkdir::DirEntry]: its path, its file name, and
    [file_type().is_dir()]. *)
Record DirEntry : Type := {
  de_path : path;
  de_name : string;
  de_is_dir : bool
}.

(** [is_hidden]: [file_name().to_str().map(|s| s.starts_with('.')).unwrap_or(false)]. *)
Definition is_hidden (entry : DirEntry) : bool :=
  match to_str (de_name entry) with
  | Some s => starts_with [46] s
  | None => false
  end.

(** [WalkDir::new(..).into_iter().filter_entry(|e| !is_hidden(e))] from
    the node [n] found at path [p] with file name [nm]: pre-order, children
    in directory order.  An entry failing the predicate is dropped and, if
    it is a directory, not descended into ([skip_current_dir]); [Err] items
    ([None]) pass the filter unchanged.  A directory is yielded before the
    error of a failed [read_dir]. *)
Fixpoint walk_at (p : path) (nm : string) (n : node) {struct n} : list (option DirEntry) :=
  match n with
  | NBad => [None]
  | NFile _ _ =>
      let e := {| de_path := p; de_name := nm; de_is_dir := false |} in
      if is_hidden e then [] else [Some e]
  | NDir _ ch =>
      let e := {| de_path := p; de_name := nm; de_is_dir := true |} in
      if is_hidden e then []
      else Some e :: match ch with
                     | None => [None]
                     | Some cs => flat_map (fun c => walk_at (p ++ [node_name c]) (node_name c) c) cs
                     end
  end.

(** The walk from [target_dir]: the root entry first (an [Err] if the path
    does not resolve). *)
Definition walk (fs : node) (target_dir : path) : list (option DirEntry) :=
  match lookup_node fs target_dir with
  | None => [None]
  | Some n => walk_at target_dir (file_name target_dir) n
  end.

(** [.filter_map(Result::ok)]. *)
Fixpoint oks {A : Type} (l : list (option A)) : list A :=
  match l with
  | [] => []
  | Some x :: r => x :: oks r
  | None :: r => oks r
  end.

(* ================================================================= *)
(** ** [collect_entries] *)

Abbreviation DirectoryChildren := (gmap path (list DirEntry)).

(** Loop body: [entries.entry(parent).or_default().push(entry)] with
    [parent = entry.path().parent().unwrap()]; [None] is the panic of the
    [unwrap]. *)
Definition push_entry (m : DirectoryChildren) (entry : DirEntry) : option DirectoryChildren :=
  match parent (de_path entry) with
  | None => None
  | Some k => Some (<[k := default [] (m !! k) ++ [entry]]> m)
  end.

Fixpoint push_all (m : DirectoryChildren) (es : list DirEntry) : option DirectoryChildren :=
  match es with
  | [] => Some m
  | e :: r =>
      match push_entry m e with
      | None => None
      | Some m' => push_all m' r
      end
  end.

(** [slice::sort_by] is a stable sort; with a total preorder its result is
    the unique stable ordering, computed here by insertion. *)
Section SortBy.
Context {A : Type} (cmp : A -> A -> comparison).

Fixpoint insert_by (x : A) (l : list A) : list A :=
  match l with
  | [] => [x]
  | y :: r =>
      match cmp x y with
      | Gt => y :: insert_by x r
      | _ => x :: y :: r
      end
  end.

Fixpoint sort_by (l : list A) : list A :=
  match l with
  | [] => []
  | x :: r => insert_by x (sort_by r)
  end.
End SortBy.

(** [Ord for bool]: [false < true]. *)
Definition bool_cmp (a b : bool) : comparison :=
  match a, b with
  | false, true => Lt
  | true, false => Gt
  | _, _ => Eq
  end.

Section Collect.
(** [str::to_lowercase], the Unicode lower-case mapping, left abstract. *)
Variable to_lowercase : ustring -> ustring.

Definition lower_name (e : DirEntry) : ustring :=
  to_lowercase (to_string_lossy (de_name e)).

(** The comparator given to [sort_by]:
    [a.is_dir.cmp(&b.is_dir).reverse().then_with(|| a_name.cmp(&b_name))]. *)
Definition entry_cmp (a b : DirEntry) : comparison :=
  match CompOpp (bool_cmp (de_is_dir a) (de_is_dir b)) with
  | Eq => ustr_cmp (lower_name a) (lower_name b)
  | c => c
  end.

(** [for vec in entries.values_mut() { vec.sort_by(..) }], visiting the
    keys in the order [ks] of the map's hasher. *)
Definition sort_values (ks : list path) (m : DirectoryChildren) : DirectoryChildren :=
  foldl (fun acc k => alter (sort_by entry_cmp) k acc) m ks.

(** [collect_entries]; [order m] is the iteration order of the
    [HashMap] [m] (it depends on the process's random hash seed). *)
Definition collect_entries (order : DirectoryChildren -> list path)
    (fs : node) (target_dir : path) : option DirectoryChildren :=
  match push_all {[target_dir := []]} (oks (walk fs target_dir)) with
  | None => None
  | Some m => Some (sort_values (order m) m)
  end.
End Collect.

(* ================================================================= *)
(** ** [get_responsibility] *)

Definition fallback : ustring := u "No responsibility comment".

(** The characters [trim_start_matches] removes:
    [c.is_whitespace() || c == '/' || c == '#']. *)
Definition comment_char (c : N) : bool := is_whitespace c || (c =? 47) || (c =? 35).

(** [for line in reader.lines() { if let Ok(line) = line { .. } }]:
    [Err] items are skipped, blank lines are skipped, and the first
    non-blank line decides ([return] or [break]). *)
Fixpoint scan_lines (ls : list (option ustring)) : ustring :=
  match ls with
  | [] => fallback
  | None :: r => scan_lines r
  | Some line :: r =>
      match trim line with
      | [] => scan_lines r
      | trimmed_line =>
          if starts_with (u "//") trimmed_line || starts_with (u "#") trimmed_line
          then trim_start_matches comment_char trimmed_line
          else fallback
      end
  end.

(** [get_responsibility]: the argument is what [File::open] gives,
    [None] when it fails. *)
Definition get_responsibility (file : option (list (option ustring))) : ustring :=
  match file with
  | None => fallback
  | Some ls => scan_lines ls
  end.

(* ================================================================= *)
(** ** [print_tree] *)

(** [Path::is_dir] ([false] when the path does not resolve).  In this model
    without symbolic links and with readable metadata it is the kind of the
    object at [p]; a symlink to a directory (a non-directory for [walkdir],
    a directory for [Path::is_dir]) is outside it. *)
Definition is_dir_at (fs : node) (p : path) : bool :=
  match lookup_node fs p with
  | Some (NDir _ _) => true
  | _ => false
  end.

(** [File::open(path)] followed by [reader.lines()]; [print_tree] calls it
    only on paths that are not directories. *)
Definition open_at (fs : node) (p : path) : option (list (option ustring)) :=
  match lookup_node fs p with
  | Some (NFile _ c) => c
  | _ => None
  end.

(** ["    "] for a finished ancestor, ["│   "] for an open one. *)
Definition prefix_unit (last : bool) : ustring :=
  if last then u "    " else [0x2502; 32; 32; 32].

(** ["└── "] for the last child, ["├── "] otherwise. *)
Definition branch (is_last : bool) : ustring :=
  if is_last then [0x2514; 0x2500; 0x2500; 32] else [0x251C; 0x2500; 0x2500; 32].

Definition render_prefix (prefix : list bool) (is_last : bool) : ustring :=
  concat (map prefix_unit prefix) ++ branch is_last.

Definition sep : ustring := u " - ".

(** The loop [for (i, entry) in children.iter().enumerate()] of
    [print_tree]; [recur] is the recursive call.  [None] only when the
    recursion runs out of fuel. *)
Fixpoint print_children (recur : path -> list bool -> option (list ustring))
    (fs : node) (prefix : list bool) (count i : nat) (cs : list DirEntry)
    : option (list ustring) :=
  match cs with
  | [] => Some []
  | entry :: rest =>
      let is_last := Nat.eqb i (count - 1) in
      let line_prefix := render_prefix prefix is_last in
      let fname := to_string_lossy (de_name entry) in
      if is_dir_at fs (de_path entry) then
        sub ← recur (de_path entry) (prefix ++ [is_last]);
        tl ← print_children recur fs prefix count (S i) rest;
        Some ((line_prefix ++ fname) :: sub ++ tl)
      else
        tl ← print_children recur fs prefix count (S i) rest;
        Some ((line_prefix ++ fname ++ sep ++ get_responsibility (open_at fs (de_path entry))) :: tl)
  end.

(** [print_tree], one output line per [println!]; the push/pop of the
    [prefix] stack around the recursive call is the argument
    [prefix ++ [is_last]].  The recursion is bounded by [fuel]. *)
Fixpoint print_tree (fuel : nat) (fs : node) (entries : DirectoryChildren)
    (p : path) (prefix : list bool) : option (list ustring) :=
  match fuel with
  | O => None
  | S f =>
      match entries !! p with
      | None => Some []
      | Some children => print_children (print_tree f fs entries) fs prefix (length children) 0 children
      end
  end.

(** Enough fuel for [print_tree] on a map built by [collect_entries]:
    each recursive call is on a path one component longer, so one more than
    the longest entry path suffices. *)
Definition print_fuel (entries : DirectoryChildren) : nat :=
  S (foldr Nat.max 0%nat (map (fun e => length (de_path e)) (concat (map snd (map_to_list entries))))).

(* ================================================================= *)
(** ** [main] (the tree mode; the [completion] subcommand is not modelled) *)

Inductive outcome : Type :=
  | Printed (stdout : list ustring)  (** normal exit, the lines printed *)
  | SetupError                       (** [eprintln!] and [exit(1)], nothing on stdout *)
  | Panicked                         (** a panic (exit status 101) *)
  | OutOfFuel.

(** [canonical] is the result of [Path::new(&cli.path).canonicalize()]. *)
Definition main (to_lowercase : ustring -> ustring) (order : DirectoryChildren -> list path)
    (fs : node) (canonical : option path) : outcome :=
  match canonical with
  | None => SetupError
  | Some target_dir =>
      match collect_entries to_lowercase order fs target_dir with
      | None => Panicked
      | Some entries =>
          match print_tree (print_fuel entries) fs entries target_dir [] with
          | Some out => Printed out
          | None => OutOfFuel
          end
      end
  end.

(** Instances for concrete runs: [str::to_lowercase] on ASCII text, and
    the iteration order of the map's own key order. *)
Definition ascii_to_lowercase (s : ustring) : ustring :=
  map (fun c => if (65 <=? c) && (c <=? 90) then c + 32 else c) s.

Definition key_order (m : DirectoryChildren) : list path := (map_to_list m).*1.

(* ================================================================= *)
(** ** Vocabulary of the specification

    These definitions follow the words of the specification; the theorems
    below compare the program's definitions with them. *)

Definition is_blank (l : ustring) : bool :=
  match trim l with
  | [] => true
  | _ => false
  end.

(** The first line that is read successfully and is not blank. *)
Fixpoint first_nonblank (ls : list (option ustring)) : option ustring :=
  match ls with
  | [] => None
  | None :: r => first_nonblank r
  | Some l :: r => if is_blank l then first_nonblank r else Some l
  end.

Definition has_marker (t : ustring) : bool := starts_with (u "//") t || starts_with (u "#") t.

(** A file name that is hidden: valid UTF-8 starting with ['.']. *)
Definition hidden_name (nm : string) : bool :=
  match to_str nm with
  | Some s => starts_with [46] s
  | None => false
  end.

(** The non-hidden immediate children of the directory node [n] at [p]. *)
Definition child_entry (p : path) (c : node) : option DirEntry :=
  match c with
  | NBad => None
  | NFile nm _ => if hidden_name nm then None
                  else Some {| de_path := p ++ [nm]; de_name := nm; de_is_dir := false |}
  | NDir nm _ => if hidden_name nm then None
                 else Some {| de_path := p ++ [nm]; de_name := nm; de_is_dir := true |}
  end.

Definition listed_children (p : path) (n : node) : list DirEntry :=
  match n with
  | NDir _ (Some cs) => oks (map (child_entry p) cs)
  | _ => []
  end.

(** The node at relative path [r] below [n] (named [nm]), reached only
    through non-hidden names. *)
Fixpoint reach (nm : string) (n : node) (r : path) : option node :=
  if hidden_name nm then None
  else match r with
       | [] => Some n
       | x :: r' =>
           match n with
           | NDir _ (Some cs) =>
               match List.find (child_named x) cs with
               | Some c => reach x c r'
               | None => None
               end
           | _ => None
           end
       end.

(** A listing item that is an actual file or directory, not an [Err]. *)
Definition is_node (c : node) : bool :=
  match c with
  | NBad => false
  | _ => true
  end.

(** A well-formed file system: the names within a directory are distinct. *)
Fixpoint wf_node (n : node) : bool :=
  match n with
  | NDir _ (Some cs) =>
      bool_decide (NoDup (map node_name (List.filter is_node cs)))
      && forallb wf_node cs
  | _ => true
  end.

(** The line the specification gives for the entry [e], the [i]-th of
    [count] siblings, below ancestors whose last-child flags are
    [ancestors]: one unit per ancestor, ["    "] for a last ancestor and
    ["│   "] (U+2502 and three spaces) otherwise, then ["└── "] (U+2514,
    U+2500, U+2500, space) for the last sibling and ["├── "] (U+251C,
    U+2500, U+2500, space) otherwise, then the name, and for a file the
    separator [" - "] and the extractor's result. *)
Definition spec_line (fs : node) (ancestors : list bool) (count i : nat) (e : DirEntry) : ustring :=
  concat (map (fun last : bool => if last then u "    " else [0x2502; 32; 32; 32] : ustring) ancestors) ++
  (if Nat.eqb i (count - 1) then [0x2514; 0x2500; 0x2500; 32] else [0x251C; 0x2500; 0x2500; 32]) ++
  to_string_lossy (de_name e) ++
  (if is_dir_at fs (de_path e) then [] else u " - " ++ get_responsibility (open_at fs (de_path e))).

(** A [HashMap] iteration order visits every key exactly once. *)
Definition valid_order (order : DirectoryChildren -> list path) : Prop :=
  forall m, order m ≡ₚ (map_to_list m).*1.

(* ================================================================= *)
(** The entries that compare equal to [a] under [cmp]. *)
Definition equiv_to {A : Type} (cmp : A -> A -> comparison) (a : A) (y : A) : bool :=
  match cmp y a with Eq => true | _ => false end.

(** A line printed by [print_tree] at [p] under the ancestors [pre]: the
    prefix units of [pre] and of [bs] more levels, a branch marker and the
    name of an entry of the map whose path is [length bs + 1] components
    longer than [p]. *)
Definition depth_line (M : DirectoryChildren) (p : path) (pre : list bool) (line : ustring) : Prop :=
  exists k l e bs b rest,
    M !! k = Some l /\ e ∈ l /\
    line = concat (map prefix_unit (pre ++ bs)) ++ branch b ++ to_string_lossy (de_name e) ++ rest /\
    length (de_path e) = (length p + length bs + 1)%nat.

(** * Properties *)

(** ** The responsibility extractor *)

Lemma scan_lines_first_nonblank (ls : list (option ustring)) :
  scan_lines ls =
  match first_nonblank ls with
  | Some l => if has_marker (trim l) then trim_start_matches comment_char (trim l) else fallback
  | None => fallback
  end.
Proof.
  induction ls as [|[l|] r IH]; cbn [scan_lines first_nonblank]; [reflexivity| |exact IH].
  unfold is_blank. destruct (trim l) eqn:E; [exact IH|].
  unfold has_marker. rewrite E. reflexivity.
Qed.

Lemma trim_start_matches_split (pred : N -> bool) (s : ustring) :
  exists pfx, s = pfx ++ trim_start_matches pred s /\
    Forall (fun c => pred c = true) pfx /\
    match trim_start_matches pred s with [] => True | c :: _ => pred c = false end.
Proof.
  induction s as [|c s IH]; simpl.
  - exists []. done.
  - destruct (pred c) eqn:Hc.
    + destruct IH as (pfx & Heq & Hall & Hhd). exists (c :: pfx).
      split; [simpl; congruence|]. split; [constructor; done|done].
    + exists []. done.
Qed.

(** C2. [get_responsibility] returns what is left of the first non-blank
    line after the markers when that line starts with ["//"] or ["#"], and
    ["No responsibility comment"] when it starts with neither, when the file
    has no non-blank line, or when the file cannot be opened.  Lines that
    cannot be read are skipped. *)
Theorem get_responsibility_first_comment :
  (forall ls : list (option ustring),
     get_responsibility (Some ls) =
     match first_nonblank ls with
     | Some l =>
         if starts_with (u "//") (trim l) || starts_with (u "#") (trim l)
         then trim_start_matches comment_char (trim l)
         else u "No responsibility comment"
     | None => u "No responsibility comment"
     end) /\
  get_responsibility None = u "No responsibility comment" /\
  get_responsibility (Some [Some (u "// does X")]) = u "does X" /\
  get_responsibility (Some [Some (u "# does Y")]) = u "does Y" /\
  get_responsibility (Some [Some []; Some (u "   "); Some (u "does Z")]) = u "No responsibility comment" /\
  get_responsibility (Some []) = u "No responsibility comment".
Proof.
  split; [|repeat split; reflexivity].
  intros ls. apply scan_lines_first_nonblank.
Qed.

(** C7. On a first non-blank line with a marker, every leading whitespace,
    ['/'] and ['#'] character is stripped: the trimmed line is a run of such
    characters followed by the result, which does not start with one. *)
Theorem get_responsibility_strips_all_markers (ls : list (option ustring)) (l : ustring) :
  first_nonblank ls = Some l ->
  has_marker (trim l) = true ->
  exists pfx,
    trim l = pfx ++ get_responsibility (Some ls) /\
    Forall (fun c => is_whitespace c || (c =? 47) || (c =? 35) = true) pfx /\
    match get_responsibility (Some ls) with
    | [] => True
    | c :: _ => is_whitespace c || (c =? 47) || (c =? 35) = false
    end.
Proof.
  intros Hfirst Hmark. simpl. rewrite scan_lines_first_nonblank, Hfirst, Hmark.
  apply (trim_start_matches_split comment_char (trim l)).
Qed.

Lemma get_responsibility_strips_all_markers_witness :
  get_responsibility (Some [Some (u "//// TODO")]) = u "TODO" /\
  exists pfx,
    trim (u "//// TODO") = pfx ++ get_responsibility (Some [Some (u "//// TODO")]) /\
    Forall (fun c => is_whitespace c || (c =? 47) || (c =? 35) = true) pfx /\
    match get_responsibility (Some [Some (u "//// TODO")]) with
    | [] => True
    | c :: _ => is_whitespace c || (c =? 47) || (c =? 35) = false
    end.
Proof.
  split; [reflexivity|].
  apply (get_responsibility_strips_all_markers [Some (u "//// TODO")] (u "//// TODO")); reflexivity.
Defined.

(** ** The root entry of the walk *)

(** C9. Every walk starts with the root entry itself.  At [/] that entry
    has no parent and [entry.path().parent().unwrap()] panics; at [/r] the
    root entry is filed under the key [/], outside the target's subtree. *)
Theorem collect_entries_root_unwrap_panics :
  (forall (to_lowercase : ustring -> ustring) (order : DirectoryChildren -> list path)
          (nm : string) (children : option (list node)),
     collect_entries to_lowercase order (NDir nm children) [] = None) /\
  (exists m, collect_entries ascii_to_lowercase key_order
               (NDir "" (Some [NDir "r" (Some [])])) ["r"%string] = Some m /\
             m !! [] = Some [{| de_path := ["r"%string]; de_name := "r"; de_is_dir := true |}]).
Proof.
  split.
  - intros. reflexivity.
  - eexists. split; [reflexivity|]. reflexivity.
Qed.





(** ** The sort of every sibling list *)

Lemma ustr_cmp_opp (a b : ustring) : ustr_cmp b a = CompOpp (ustr_cmp a b).
Proof.
  revert b; induction a as [|x a IH]; intros [|y b]; cbn [ustr_cmp]; try reflexivity.
  rewrite (N.compare_antisym x y).
  destruct (N.compare x y); cbn [CompOpp]; [apply IH|reflexivity|reflexivity].
Qed.

Lemma ustr_cmp_le_trans (a b c : ustring) :
  ustr_cmp a b <> Gt -> ustr_cmp b c <> Gt -> ustr_cmp a c <> Gt.
Proof.
  revert b c; induction a as [|x a IH]; intros [|y b] [|z c]; cbn [ustr_cmp];
    try (intros; discriminate); try congruence.
  destruct (N.compare_spec x y), (N.compare_spec y z), (N.compare_spec x z);
    subst; try lia; try (intros; discriminate); try congruence; eauto.
Qed.

Section SortProps.
Context {A : Type} (cmp : A -> A -> comparison).
Hypothesis cmp_opp : forall a b, cmp b a = CompOpp (cmp a b).
Hypothesis cmp_le_trans : forall a b c, cmp a b <> Gt -> cmp b c <> Gt -> cmp a c <> Gt.

Definition le_by (a b : A) : Prop := cmp a b <> Gt.

Lemma le_by_gt a b : cmp a b = Gt -> le_by b a.
Proof. intros H. unfold le_by. rewrite cmp_opp, H. discriminate. Qed.

Lemma insert_by_perm x l : insert_by cmp x l ≡ₚ x :: l.
Proof.
  induction l as [|y l IH]; cbn [insert_by]; [done|].
  destruct (cmp x y); [done|done|]. rewrite IH. constructor.
Qed.

Lemma sort_by_perm l : sort_by cmp l ≡ₚ l.
Proof.
  induction l as [|x l IH]; cbn [sort_by]; [done|].
  rewrite insert_by_perm, IH. done.
Qed.

Lemma insert_by_sorted x l : Sorted le_by l -> Sorted le_by (insert_by cmp x l).
Proof.
  induction 1 as [|y l Hs IH Hhd]; cbn [insert_by].
  - repeat constructor.
  - destruct (cmp x y) eqn:E.
    + constructor; [constructor; done|constructor; unfold le_by; congruence].
    + constructor; [constructor; done|constructor; unfold le_by; congruence].
    + constructor; [exact IH|].
      destruct l as [|z l]; cbn [insert_by].
      * constructor. by apply le_by_gt.
      * destruct (cmp x z); constructor; [by apply le_by_gt|by apply le_by_gt|].
        by inversion Hhd.
Qed.

Lemma sort_by_sorted l : Sorted le_by (sort_by cmp l).
Proof.
  induction l as [|x l IH]; cbn [sort_by]; [constructor|]. by apply insert_by_sorted.
Qed.

Lemma sort_by_pairwise l i j a b :
  sort_by cmp l !! i = Some a -> sort_by cmp l !! j = Some b -> (i < j)%nat -> cmp a b <> Gt.
Proof.
  assert (Hss : StronglySorted le_by (sort_by cmp l)).
  { apply Sorted_StronglySorted; [|apply sort_by_sorted]. intros x y z. apply cmp_le_trans. }
  revert i j a b. induction Hss as [|h t _ IH Hall]; intros i j a b Ha Hb Hij; [done|].
  destruct i as [|i], j as [|j]; try lia; cbn in Ha, Hb.
  - injection Ha as <-. rewrite Forall_forall in Hall. apply Hall.
    by eapply list_elem_of_lookup_2.
  - apply (IH i j); auto; lia.
Qed.
End SortProps.

Lemma bool_cmp_opp (a b : bool) : bool_cmp b a = CompOpp (bool_cmp a b).
Proof. by destruct a, b. Qed.

Lemma entry_cmp_opp (to_lowercase : ustring -> ustring) (a b : DirEntry) :
  entry_cmp to_lowercase b a = CompOpp (entry_cmp to_lowercase a b).
Proof.
  unfold entry_cmp. destruct (de_is_dir a), (de_is_dir b); cbn; try reflexivity;
    apply ustr_cmp_opp.
Qed.

Lemma entry_cmp_le_trans (to_lowercase : ustring -> ustring) (a b c : DirEntry) :
  entry_cmp to_lowercase a b <> Gt -> entry_cmp to_lowercase b c <> Gt ->
  entry_cmp to_lowercase a c <> Gt.
Proof.
  unfold entry_cmp. destruct (de_is_dir a), (de_is_dir b), (de_is_dir c); cbn;
    try congruence; apply ustr_cmp_le_trans.
Qed.

Lemma foldl_alter_lookup {V : Type} (f : V -> V) (ks : list path) (m : gmap path V) (k : path) :
  NoDup ks ->
  foldl (fun acc k => alter f k acc) m ks !! k = if decide (k ∈ ks) then f <$> m !! k else m !! k.
Proof.
  intros Hnd. revert m. induction Hnd as [|k0 ks Hnin Hnd IH]; intros m; cbn [foldl].
  - case_decide as Hin; [by apply not_elem_of_nil in Hin|done].
  - rewrite IH. rewrite lookup_alter.
    destruct (decide (k0 = k)) as [<-|Hne].
    + rewrite decide_False by done. rewrite decide_True by (apply elem_of_cons; by left). done.
    + case_decide as Hin; case_decide as Hin'; try done.
      * exfalso. apply Hin'. apply elem_of_cons. by right.
      * exfalso. apply elem_of_cons in Hin' as [->|]; done.
Qed.

Lemma sort_values_fmap (to_lowercase : ustring -> ustring) (order : DirectoryChildren -> list path)
    (m : DirectoryChildren) :
  valid_order order ->
  sort_values to_lowercase (order m) m = sort_by (entry_cmp to_lowercase) <$> m.
Proof.
  intros Hord. apply map_eq. intros k. unfold sort_values.
  rewrite foldl_alter_lookup.
  2: { rewrite (Hord m). apply NoDup_fst_map_to_list. }
  rewrite lookup_fmap. case_decide as Hin; [done|].
  destruct (m !! k) as [v|] eqn:E; [|done].
  exfalso. apply Hin. rewrite (Hord m). apply list_elem_of_fmap.
  exists (k, v). split; [done|]. by apply elem_of_map_to_list.
Qed.

Lemma key_order_valid : valid_order key_order.
Proof. intros m. reflexivity. Qed.

(** C1. In every sibling list of the map built by [collect_entries],
    directories come before files, and within each group the lower-cased
    names ([to_lowercase] of the lossily decoded file name) are in
    ascending (non-decreasing) order. *)
Theorem collect_entries_sorted (to_lowercase : ustring -> ustring)
    (order : DirectoryChildren -> list path) (fs : node) (target : path)
    (m : DirectoryChildren) (k : path) (l : list DirEntry) :
  valid_order order ->
  collect_entries to_lowercase order fs target = Some m ->
  m !! k = Some l ->
  forall (i j : nat) (a b : DirEntry),
    (i < j)%nat -> l !! i = Some a -> l !! j = Some b ->
    (de_is_dir b = true -> de_is_dir a = true) /\
    (de_is_dir a = de_is_dir b ->
     ustr_cmp (to_lowercase (to_string_lossy (de_name a)))
              (to_lowercase (to_string_lossy (de_name b))) <> Gt).
Proof.
  intros Hord Hc Hk i j a b Hij Ha Hb.
  unfold collect_entries in Hc. destruct push_all as [m0|]; [|done]. injection Hc as <-.
  rewrite sort_values_fmap in Hk by done. rewrite lookup_fmap in Hk.
  destruct (m0 !! k) as [l0|]; [|done]. injection Hk as <-.
  pose proof (sort_by_pairwise (entry_cmp to_lowercase) (entry_cmp_opp _)
                (entry_cmp_le_trans _) l0 i j a b Ha Hb Hij) as H.
  unfold entry_cmp, lower_name in H.
  destruct (de_is_dir a), (de_is_dir b); cbn in H; split; try done.
Qed.

Lemma collect_entries_sorted_witness :
  let a := {| de_path := ["r"; "b.txt"]%string; de_name := "b.txt"; de_is_dir := false |} in
  let b := {| de_path := ["r"; "C"]%string; de_name := "C"; de_is_dir := false |} in
  (de_is_dir b = true -> de_is_dir a = true) /\
  (de_is_dir a = de_is_dir b ->
   ustr_cmp (ascii_to_lowercase (to_string_lossy (de_name a)))
            (ascii_to_lowercase (to_string_lossy (de_name b))) <> Gt).
Proof.
  intros a b.
  apply (collect_entries_sorted ascii_to_lowercase key_order
    (NDir "" (Some [NDir "r" (Some [NFile "b.txt" (Some []); NDir "A" (Some []); NFile "C" None])]))
    ["r"%string]
    (default ∅ (collect_entries ascii_to_lowercase key_order
       (NDir "" (Some [NDir "r" (Some [NFile "b.txt" (Some []); NDir "A" (Some []); NFile "C" None])]))
       ["r"%string]))
    ["r"%string]
    [{| de_path := ["r"; "A"]%string; de_name := "A"; de_is_dir := true |};
     {| de_path := ["r"; "b.txt"]%string; de_name := "b.txt"; de_is_dir := false |};
     {| de_path := ["r"; "C"]%string; de_name := "C"; de_is_dir := false |}]
    key_order_valid ltac:(vm_compute; reflexivity) ltac:(vm_compute; reflexivity)
    1%nat 2%nat); [lia|reflexivity|reflexivity].
Defined.

(** ** Determinism of the output *)

(** C8. The output of [main] does not depend on the iteration order of the
    [HashMap] (its random hash seed): two runs on the same file system give
    the same result. *)
Theorem main_independent_of_hash_order (to_lowercase : ustring -> ustring)
    (order1 order2 : DirectoryChildren -> list path) (fs : node) (canonical : option path) :
  valid_order order1 -> valid_order order2 ->
  main to_lowercase order1 fs canonical = main to_lowercase order2 fs canonical.
Proof.
  intros H1 H2. unfold main, collect_entries.
  destruct canonical as [target|]; [|reflexivity].
  destruct push_all as [m|]; [|reflexivity].
  rewrite (sort_values_fmap _ order1 m H1), (sort_values_fmap _ order2 m H2).
  reflexivity.
Qed.

Lemma main_independent_of_hash_order_witness :
  valid_order key_order /\ valid_order (fun m => reverse (key_order m)) /\
  main ascii_to_lowercase key_order
    (NDir "" (Some [NDir "r" (Some [NFile "b.txt" (Some [Some (u "// file b")]); NDir "a" (Some [])])]))
    (Some ["r"%string]) =
  main ascii_to_lowercase (fun m => reverse (key_order m))
    (NDir "" (Some [NDir "r" (Some [NFile "b.txt" (Some [Some (u "// file b")]); NDir "a" (Some [])])]))
    (Some ["r"%string]).
Proof.
  assert (Hrev : valid_order (fun m => reverse (key_order m))).
  { intros m. rewrite reverse_Permutation. reflexivity. }
  split; [exact key_order_valid|]. split; [exact Hrev|].
  apply main_independent_of_hash_order; [exact key_order_valid|exact Hrev].
Defined.

(** ** Error handling *)

(** C6. A failed [canonicalize] ends in the setup error; but the walk from
    [/] also fails, with a panic of [parent().unwrap()] on the root entry
    (the defect of C9). *)
Theorem main_setup_error_and_root_panic :
  (forall (to_lowercase : ustring -> ustring) (order : DirectoryChildren -> list path) (fs : node),
     main to_lowercase order fs None = SetupError) /\
  (forall (to_lowercase : ustring -> ustring) (order : DirectoryChildren -> list path)
          (nm : string) (children : option (list node)),
     main to_lowercase order (NDir nm children) (Some []) = Panicked).
Proof. split; intros; reflexivity. Qed.

(** ** The walk *)

Lemma node_ind' (P : node -> Prop)
    (Hfile : forall nm c, P (NFile nm c))
    (Hdir_none : forall nm, P (NDir nm None))
    (Hdir : forall nm cs, Forall P cs -> P (NDir nm (Some cs)))
    (Hbad : P NBad) :
  forall n, P n.
Proof.
  fix IH 1. intros [nm c|nm [cs|]|].
  - apply Hfile.
  - apply Hdir. revert cs. fix IHl 1. intros [|c cs]; constructor; [apply IH|apply IHl].
  - apply Hdir_none.
  - apply Hbad.
Qed.

Lemma oks_app {A : Type} (l1 l2 : list (option A)) : oks (l1 ++ l2) = oks l1 ++ oks l2.
Proof. induction l1 as [|[x|] l1 IH]; cbn; [done|by rewrite IH|exact IH]. Qed.

Lemma oks_flat_map {A B : Type} (f : A -> list (option B)) (l : list A) :
  oks (flat_map f l) = flat_map (fun x => oks (f x)) l.
Proof. induction l as [|x l IH]; cbn; [done|]. by rewrite oks_app, IH. Qed.

Lemma elem_of_oks {A : Type} (x : A) (l : list (option A)) : x ∈ oks l <-> Some x ∈ l.
Proof.
  induction l as [|[y|] l IH]; cbn.
  - rewrite !elem_of_nil. done.
  - rewrite !elem_of_cons, IH. split; intros [H|H]; try (by right); left; congruence.
  - rewrite elem_of_cons, IH. split; [by right|]. intros [H|H]; [discriminate|done].
Qed.

Lemma elem_of_flat_map {A B : Type} (f : A -> list B) (l : list A) (y : B) :
  y ∈ flat_map f l <-> exists x, x ∈ l /\ y ∈ f x.
Proof.
  induction l as [|x l IH]; cbn.
  - rewrite elem_of_nil. split; [done|]. intros (x & Hx & _). by apply not_elem_of_nil in Hx.
  - rewrite elem_of_app, IH. split.
    + intros [H|(x' & Hx' & H)]; [exists x|exists x']; rewrite elem_of_cons; auto.
    + intros (x' & Hx' & H). apply elem_of_cons in Hx' as [->|Hx']; [by left|right; eauto].
Qed.

Lemma last_cons_default {A : Type} (x : A) (r : list A) : last (x :: r) = Some (default x (last r)).
Proof. rewrite last_cons. by destruct (last r). Qed.

Lemma is_hidden_name (e : DirEntry) : is_hidden e = hidden_name (de_name e).
Proof. reflexivity. Qed.

(** Every entry of the walk below [p] lies under [p], and every name on its
    way down from the walk's root, the root included, is not hidden. *)
Lemma walk_at_prefix (n : node) :
  forall (p : path) (nm : string) (e : DirEntry),
    e ∈ oks (walk_at p nm n) ->
    exists r, de_path e = p ++ r /\
      Forall (fun x => hidden_name x = false) (nm :: r) /\
      de_name e = default nm (last r).
Proof.
  induction n as [nm0 c|nm0|nm0 cs IHcs|] using node_ind'; intros p nm e He; cbn [walk_at] in He.
  - destruct (is_hidden _) eqn:Hh; cbn in He; [by apply not_elem_of_nil in He|].
    apply list_elem_of_singleton in He as ->. exists []. rewrite app_nil_r.
    split; [done|]. split; [|done]. constructor; [exact Hh|constructor].
  - destruct (is_hidden _) eqn:Hh; cbn in He; [by apply not_elem_of_nil in He|].
    apply list_elem_of_singleton in He as ->. exists []. rewrite app_nil_r.
    split; [done|]. split; [|done]. constructor; [exact Hh|constructor].
  - destruct (is_hidden _) eqn:Hh; cbn in He; [by apply not_elem_of_nil in He|].
    apply elem_of_cons in He as [->|He].
    + exists []. rewrite app_nil_r. split; [done|]. split; [|done]. constructor; [exact Hh|constructor].
    + rewrite oks_flat_map in He. apply elem_of_flat_map in He as (c & Hc & He).
      rewrite Forall_forall in IHcs.
      destruct (IHcs c Hc _ _ _ He) as (r & Hp & Hall & Hn).
      exists (node_name c :: r). split; [by rewrite Hp, <- app_assoc|].
      split; [constructor; [exact Hh|exact Hall]|].
      rewrite Hn, last_cons_default. reflexivity.
  - cbn in He. by apply not_elem_of_nil in He.
Qed.

(** ** Grouping and sorting keep exactly the walked entries *)

Lemma sort_values_lookup (to_lowercase : ustring -> ustring) (ks : list path)
    (m : DirectoryChildren) (k : path) (l : list DirEntry) :
  sort_values to_lowercase ks m !! k = Some l -> exists l0, m !! k = Some l0 /\ l ≡ₚ l0.
Proof.
  unfold sort_values. revert m l. induction ks as [|k0 ks IH]; intros m l H; cbn [foldl] in H.
  - exists l. done.
  - apply IH in H as (l1 & H1 & Hp). rewrite lookup_alter in H1.
    case_decide as Heq.
    + subst k0. destruct (m !! k) as [l0|] eqn:E; [|done]. cbn in H1. injection H1 as <-.
      exists l0. split; [done|]. by rewrite Hp, sort_by_perm.
    + exists l1. done.
Qed.

(** The map after the loop: every entry is appended to the list of its
    parent, in walk order. *)
Lemma push_all_lookup (m M : DirectoryChildren) (es : list DirEntry) (k : path) :
  push_all m es = Some M ->
  M !! k = match m !! k with
           | Some l0 => Some (l0 ++ filter (fun e => parent (de_path e) = Some k) es)
           | None => match filter (fun e => parent (de_path e) = Some k) es with
                     | [] => None
                     | l => Some l
                     end
           end.
Proof.
  revert m. induction es as [|e es IH]; intros m H; cbn [push_all] in H.
  - injection H as <-. destruct (m !! k) as [l0|]; cbn; [by rewrite app_nil_r|done].
  - unfold push_entry in H. destruct (parent (de_path e)) as [k0|] eqn:Hp; [|done].
    rewrite (IH _ H). rewrite filter_cons.
    destruct (decide (k0 = k)) as [<-|Hne].
    + rewrite lookup_insert_eq. rewrite decide_True by done.
      destruct (m !! k0) as [l0|]; cbn; [by rewrite <- app_assoc|done].
    + rewrite lookup_insert_ne by done. rewrite decide_False by congruence. done.
Qed.


Lemma collect_entries_from_walk (to_lowercase : ustring -> ustring)
    (order : DirectoryChildren -> list path) (fs : node) (target : path)
    (m : DirectoryChildren) (k : path) (l : list DirEntry) (e : DirEntry) :
  collect_entries to_lowercase order fs target = Some m ->
  m !! k = Some l -> e ∈ l ->
  e ∈ oks (walk fs target) /\ parent (de_path e) = Some k.
Proof.
  intros Hc Hk He. unfold collect_entries in Hc.
  destruct push_all as [m0|] eqn:Hpush; [|done]. injection Hc as <-.
  apply sort_values_lookup in Hk as (l0 & Hk0 & Hperm).
  rewrite Hperm in He. rewrite (push_all_lookup _ _ _ k Hpush) in Hk0.
  rewrite lookup_singleton in Hk0.
  case_decide.
  - injection Hk0 as <-. cbn in He. by apply list_elem_of_filter in He as [? ?].
  - destruct (filter _ _) eqn:Hf; [done|]. injection Hk0 as <-.
    rewrite <- Hf in He. by apply list_elem_of_filter in He as [? ?].
Qed.

(** ** Every printed line shows the name of an entry of the map *)







(** ** Sibling lists of the walk *)

Lemma length_removelast_cons {A : Type} (y : A) (r : list A) :
  S (length (removelast (y :: r))) = length (y :: r).
Proof.
  revert y. induction r as [|z r IH]; intros y; [done|].
  change (removelast (y :: z :: r)) with (y :: removelast (z :: r)).
  cbn [length]. by rewrite IH.
Qed.

Lemma parent_length (q k : path) : parent q = Some k -> S (length k) = length q.
Proof.
  destruct q as [|y r]; cbn; [done|]. intros [= <-]. apply length_removelast_cons.
Qed.

Lemma parent_not_below (p q : path) : parent p <> Some (p ++ q).
Proof.
  intros H. apply parent_length in H. rewrite length_app in H. lia.
Qed.

Lemma removelast_app_cons (p : path) (y : string) (r : path) :
  removelast (p ++ y :: r) = p ++ removelast (y :: r).
Proof. apply removelast_app. done. Qed.

Lemma parent_app_cons (p : path) (y : string) (r : path) :
  parent (p ++ y :: r) = Some (p ++ removelast (y :: r)).
Proof. destruct p; cbn; [done|]. f_equal. apply (removelast_app_cons (_ :: _)). Qed.

(** The parent of an entry below [p ++ [y]] is [p] or lies below [p ++ [y]]. *)
Lemma parent_below_child (p : path) (y x : string) (r q : path) :
  parent (p ++ y :: r) = Some (p ++ x :: q) -> x = y.
Proof.
  rewrite parent_app_cons. intros [= H]. apply app_inv_head in H.
  destruct r as [|z r]; cbn in H; [done|]. by injection H.
Qed.

Lemma filter_none {A : Type} (P : A -> Prop) `{forall x, Decision (P x)} (l : list A) :
  (forall x, x ∈ l -> ~ P x) -> filter P l = [].
Proof.
  induction l as [|x l IH]; intros Hn; [done|].
  rewrite filter_cons_False; [|apply Hn; by left]. apply IH. intros y Hy. apply Hn. by right.
Qed.

Lemma filter_flat_map {A B : Type} (P : B -> Prop) `{forall x, Decision (P x)}
    (f : A -> list B) (l : list A) :
  filter P (flat_map f l) = flat_map (fun x => filter P (f x)) l.
Proof. induction l as [|x l IH]; cbn; [done|]. by rewrite filter_app, IH. Qed.

Lemma flat_map_oks_single (p : path) (cs : list node) :
  flat_map (fun c => oks [child_entry p c]) cs = oks (map (child_entry p) cs).
Proof.
  induction cs as [|c cs IH]; cbn [flat_map map]; [done|].
  rewrite IH. by destruct (child_entry p c).
Qed.

(** Below the directory [p], the entries whose parent is [p] are the
    root entry of each child's walk. *)
Lemma walk_at_child_parent (p : path) (c : node) :
  filter (fun e => parent (de_path e) = Some p)
    (oks (walk_at (p ++ [node_name c]) (node_name c) c)) = oks [child_entry p c].
Proof.
  assert (Hpar : forall nm b, parent (de_path {| de_path := p ++ [nm]; de_name := nm; de_is_dir := b |}) = Some p).
  { intros nm b. cbn. rewrite parent_app_cons. by rewrite app_nil_r. }
  destruct c as [nm lines|nm [cs|]|]; cbn [walk_at node_name child_entry].
  - rewrite is_hidden_name. cbn [de_name]. destruct (hidden_name nm); cbn; [done|].
    rewrite decide_True; [done|]. exact (Hpar nm false).
  - rewrite is_hidden_name. cbn [de_name]. destruct (hidden_name nm); cbn [oks]; [done|].
    rewrite filter_cons_True by apply Hpar. f_equal.
    apply filter_none. intros e He Hp.
    rewrite oks_flat_map in He. apply elem_of_flat_map in He as (c & _ & He).
    destruct (walk_at_prefix c _ _ _ He) as (r & Hr & _).
    rewrite Hr, <- !app_assoc in Hp. cbn in Hp.
    apply parent_length in Hp. rewrite !length_app in Hp. cbn in Hp. lia.
  - rewrite is_hidden_name. cbn [de_name]. destruct (hidden_name nm); cbn; [done|].
    rewrite decide_True; [done|]. exact (Hpar nm true).
  - done.
Qed.

Lemma reach_eq (nm : string) (n : node) (r : path) :
  reach nm n r =
    if hidden_name nm then None
    else match r with
         | [] => Some n
         | x :: r' =>
             match n with
             | NDir _ (Some cs) =>
                 match List.find (child_named x) cs with
                 | Some c => reach x c r'
                 | None => None
                 end
             | _ => None
             end
         end.
Proof. by destruct r. Qed.

Lemma wf_node_children (nm : string) (cs : list node) :
  wf_node (NDir nm (Some cs)) = true ->
  NoDup (map node_name (List.filter is_node cs)) /\ forall c, c ∈ cs -> wf_node c = true.
Proof.
  cbn [wf_node]. intros [Hnd Hall]%andb_prop. split; [by apply bool_decide_eq_true in Hnd|].
  intros c Hc. rewrite forallb_forall in Hall. apply Hall. by apply list_elem_of_In.
Qed.

Lemma child_named_spec (x : string) (c : node) :
  child_named x c = true <-> is_node c = true /\ node_name c = x.
Proof. destruct c; cbn; rewrite ?bool_decide_eq_true; naive_solver. Qed.

Lemma elem_of_named (cs : list node) (c : node) :
  c ∈ cs -> is_node c = true -> node_name c ∈ map node_name (List.filter is_node cs).
Proof.
  intros Hc Hn. apply list_elem_of_In, in_map, filter_In. split; [by apply list_elem_of_In|done].
Qed.

(** In a well-formed directory, looking a child up by its own name finds it. *)
Lemma find_named_unique (cs : list node) (c : node) :
  NoDup (map node_name (List.filter is_node cs)) -> c ∈ cs -> is_node c = true ->
  List.find (child_named (node_name c)) cs = Some c.
Proof.
  induction cs as [|c0 cs IH]; intros Hnd Hc Hn; [by apply not_elem_of_nil in Hc|].
  cbn [List.find]. destruct (child_named (node_name c) c0) eqn:E.
  - apply child_named_spec in E as [Hn0 Heq].
    apply elem_of_cons in Hc as [->|Hc]; [done|]. exfalso.
    cbn [List.filter] in Hnd. rewrite Hn0 in Hnd. cbn [map] in Hnd.
    apply NoDup_cons in Hnd as [Hnin _]. apply Hnin. rewrite Heq. by apply elem_of_named.
  - apply elem_of_cons in Hc as [->|Hc].
    + exfalso. by rewrite (proj2 (child_named_spec _ _) (conj Hn eq_refl)) in E.
    + apply IH; [|done|done]. cbn [List.filter] in Hnd.
      destruct (is_node c0); [|done]. cbn [map] in Hnd. by apply NoDup_cons in Hnd as [_ ?].
Qed.

Lemma flat_map_nil {A B : Type} (g : A -> list B) (l : list A) :
  (forall x, x ∈ l -> g x = []) -> flat_map g l = [].
Proof.
  induction l as [|x l IH]; intros Hg; cbn [flat_map]; [done|].
  rewrite (Hg x) by by left. apply IH. intros y Hy. apply Hg. by right.
Qed.

(** Only the child with the looked-up name contributes to a [flat_map]. *)
Lemma flat_map_find_named {B : Type} (x : string) (g : node -> list B) (cs : list node) :
  NoDup (map node_name (List.filter is_node cs)) ->
  (forall c, c ∈ cs -> child_named x c = false -> g c = []) ->
  flat_map g cs = match List.find (child_named x) cs with Some c => g c | None => [] end.
Proof.
  induction cs as [|c0 cs IH]; intros Hnd Hg; [done|]. cbn [flat_map List.find].
  destruct (child_named x c0) eqn:E.
  - rewrite flat_map_nil, app_nil_r; [done|].
    intros c Hc. apply Hg; [by right|].
    destruct (child_named x c) eqn:E'; [|done]. exfalso.
    apply child_named_spec in E as [Hn0 <-]. apply child_named_spec in E' as [Hn Heq].
    cbn [List.filter] in Hnd. rewrite Hn0 in Hnd. cbn [map] in Hnd.
    apply NoDup_cons in Hnd as [Hnin _]. apply Hnin. rewrite <- Heq. by apply elem_of_named.
  - rewrite (Hg c0) by (by left || done). cbn [app]. apply IH.
    + cbn [List.filter] in Hnd. destruct (is_node c0); [|done].
      cbn [map] in Hnd. by apply NoDup_cons in Hnd as [_ ?].
    + intros c Hc. apply Hg. by right.
Qed.

(** The entries of the walk from [n] at [p] whose parent is [p ++ q] are
    the listed children of the node reached at [q], if it is reached
    through non-hidden names. *)
Lemma walk_at_children (n : node) :
  forall (p : path) (nm : string) (q : path), wf_node n = true ->
  filter (fun e => parent (de_path e) = Some (p ++ q)) (oks (walk_at p nm n)) =
  match reach nm n q with Some d => listed_children (p ++ q) d | None => [] end.
Proof.
  induction n as [nm0 c|nm0|nm0 cs IHcs|] using node_ind'; intros p nm q Hwf;
    rewrite reach_eq; cbn [walk_at]; try rewrite is_hidden_name; cbn [de_name].
  - destruct (hidden_name nm); [done|]. cbn [oks].
    rewrite filter_cons_False by apply parent_not_below. by destruct q.
  - destruct (hidden_name nm); [done|]. cbn [oks].
    rewrite filter_cons_False by apply parent_not_below. by destruct q.
  - apply wf_node_children in Hwf as [Hnd Hwfc]. rewrite Forall_forall in IHcs.
    destruct (hidden_name nm); [done|]. cbn [oks].
    rewrite filter_cons_False by apply parent_not_below.
    rewrite oks_flat_map, filter_flat_map.
    destruct q as [|x q].
    + rewrite app_nil_r. transitivity (oks (map (child_entry p) cs)); [|reflexivity].
      rewrite <- flat_map_oks_single. apply flat_map_ext. intros c. apply walk_at_child_parent.
    + rewrite (flat_map_find_named x).
      * destruct (List.find (child_named x) cs) as [c|] eqn:Hf; [|reflexivity].
        apply find_some in Hf as [Hc Hx]. apply list_elem_of_In in Hc.
        apply child_named_spec in Hx as [_ <-].
        pose proof (IHcs c Hc (p ++ [node_name c]) (node_name c) q (Hwfc c Hc)) as H.
        rewrite <- app_assoc in H. exact H.
      * exact Hnd.
      * intros c Hc Hx. destruct (is_node c) eqn:Hn.
        2: { destruct c; [done|done|reflexivity]. }
        apply filter_none. intros e He Hp.
        destruct (walk_at_prefix c _ _ _ He) as (r & Hr & _).
        rewrite Hr, <- app_assoc in Hp.
        pose proof (parent_below_child p (node_name c) x r q Hp) as ->.
        by rewrite (proj2 (child_named_spec _ _) (conj Hn eq_refl)) in Hx.
  - by destruct (hidden_name nm), q.
Qed.

(** Every entry of the walk is the node found at its path, reached through
    non-hidden names; a directory entry is a directory node. *)
Lemma walk_at_reach (n : node) :
  forall (p : path) (nm : string) (e : DirEntry), wf_node n = true ->
    e ∈ oks (walk_at p nm n) ->
    exists r d, de_path e = p ++ r /\ reach nm n r = Some d /\ lookup_node n r = Some d /\
      (de_is_dir e = true -> exists nm' ch, d = NDir nm' ch).
Proof.
  induction n as [nm0 c|nm0|nm0 cs IHcs|] using node_ind'; intros p nm e Hwf He;
    cbn [walk_at] in He; try rewrite is_hidden_name in He; cbn [de_name] in He.
  - destruct (hidden_name nm) eqn:Hh; cbn in He; [by apply not_elem_of_nil in He|].
    apply list_elem_of_singleton in He as ->. exists [], (NFile nm0 c).
    rewrite reach_eq, Hh, app_nil_r. by repeat split.
  - destruct (hidden_name nm) eqn:Hh; cbn in He; [by apply not_elem_of_nil in He|].
    apply list_elem_of_singleton in He as ->. exists [], (NDir nm0 None).
    rewrite reach_eq, Hh, app_nil_r. repeat split; eauto.
  - apply wf_node_children in Hwf as [Hnd Hwfc]. rewrite Forall_forall in IHcs.
    destruct (hidden_name nm) eqn:Hh; cbn [oks] in He; [by apply not_elem_of_nil in He|].
    apply elem_of_cons in He as [->|He].
    + exists [], (NDir nm0 (Some cs)). rewrite reach_eq, Hh, app_nil_r. repeat split; eauto.
    + rewrite oks_flat_map in He. apply elem_of_flat_map in He as (c & Hc & He).
      destruct (is_node c) eqn:Hn.
      2: { destruct c; try done. cbn in He. by apply not_elem_of_nil in He. }
      destruct (IHcs c Hc _ _ _ (Hwfc c Hc) He) as (r & d & Hr & Hreach & Hlook & Hdir).
      exists (node_name c :: r), d. split; [by rewrite Hr, <- app_assoc|].
      cbn [reach lookup_node]. rewrite Hh, (find_named_unique cs c Hnd Hc Hn). auto.
  - cbn in He. by apply not_elem_of_nil in He.
Qed.

Lemma lookup_node_app (fs n : node) (p q : path) :
  lookup_node fs p = Some n -> lookup_node fs (p ++ q) = lookup_node n q.
Proof.
  revert fs. induction p as [|x p IH]; intros fs H; cbn [lookup_node app] in *.
  - by injection H as ->.
  - destruct fs as [|? [cs|]|]; try done.
    destruct (List.find (child_named x) cs); [by apply IH|done].
Qed.

Lemma wf_node_lookup (fs n : node) (p : path) :
  wf_node fs = true -> lookup_node fs p = Some n -> wf_node n = true.
Proof.
  revert fs. induction p as [|x p IH]; intros fs Hwf H; cbn [lookup_node] in H.
  - by injection H as <-.
  - destruct fs as [|nm [cs|]|]; try done.
    destruct (List.find (child_named x) cs) as [c|] eqn:Hf; [|done].
    apply find_some in Hf as [Hc _]. apply list_elem_of_In in Hc.
    apply wf_node_children in Hwf as [_ Hwfc]. exact (IH c (Hwfc c Hc) H).
Qed.

(** The parent of every entry strictly below the root of the walk is a
    directory entry of the walk. *)
Lemma walk_at_parent_dir (n : node) :
  forall (p : path) (nm : string) (e : DirEntry) (y : string) (r : path),
    e ∈ oks (walk_at p nm n) -> de_path e = p ++ y :: r ->
    exists e0, e0 ∈ oks (walk_at p nm n) /\ de_is_dir e0 = true /\
      de_path e0 = p ++ removelast (y :: r).
Proof.
  assert (Hne : forall (p : path) y r, p <> p ++ y :: r).
  { intros p y r H. apply (f_equal length) in H. rewrite length_app in H. cbn in H. lia. }
  induction n as [nm0 c|nm0|nm0 cs IHcs|] using node_ind'; intros p nm e y r He Hp;
    cbn [walk_at] in He |- *; try rewrite is_hidden_name in He |- *; cbn [de_name] in He |- *.
  - destruct (hidden_name nm); cbn in He; [by apply not_elem_of_nil in He|].
    apply list_elem_of_singleton in He as ->. by apply Hne in Hp.
  - destruct (hidden_name nm); cbn in He; [by apply not_elem_of_nil in He|].
    apply list_elem_of_singleton in He as ->. by apply Hne in Hp.
  - rewrite Forall_forall in IHcs.
    destruct (hidden_name nm); cbn [oks] in He |- *; [by apply not_elem_of_nil in He|].
    apply elem_of_cons in He as [->|He]; [by apply Hne in Hp|].
    pose proof He as He'.
    rewrite oks_flat_map in He'. apply elem_of_flat_map in He' as (c & Hc & Hec).
    destruct (walk_at_prefix c _ _ _ Hec) as (r0 & Hr0 & _).
    rewrite Hr0, <- app_assoc in Hp. apply app_inv_head in Hp. injection Hp as Hy Hr.
    subst y r0. destruct r as [|z r].
    + exists {| de_path := p; de_name := nm; de_is_dir := true |}.
      split; [by left|]. split; [done|]. cbn. by rewrite app_nil_r.
    + destruct (IHcs c Hc (p ++ [node_name c]) (node_name c) e z r Hec Hr0)
        as (e0 & He0 & Hd & Hp0).
      exists e0. split.
      * right. rewrite oks_flat_map. apply elem_of_flat_map. by exists c.
      * split; [done|]. rewrite Hp0, <- app_assoc. reflexivity.
  - cbn in He. by apply not_elem_of_nil in He.
Qed.

Lemma lookup_node_is_node (fs n : node) (p : path) :
  p <> [] -> lookup_node fs p = Some n -> is_node n = true.
Proof.
  revert fs. induction p as [|x p IH]; intros fs Hp H; [done|]. cbn [lookup_node] in H.
  destruct fs as [|? [cs|]|]; try done.
  destruct (List.find (child_named x) cs) as [c|] eqn:Hf; [|done].
  destruct p as [|y p].
  - cbn in H. injection H as <-. apply find_some in Hf as [_ Hc]. by destruct c.
  - by apply (IH c).
Qed.

(** Under the target's parent the walk files only the target's own entry. *)
Lemma walk_parent_key (fs n : node) (target k : path) :
  lookup_node fs target = Some n -> parent target = Some k ->
  filter (fun e => parent (de_path e) = Some k) (oks (walk fs target)) =
    if hidden_name (file_name target) then []
    else [{| de_path := target; de_name := file_name target;
             de_is_dir := match n with NDir _ _ => true | _ => false end |}].
Proof.
  intros Hn Hk.
  assert (Hne : target <> []) by (intros ->; discriminate).
  pose proof (lookup_node_is_node fs n target Hne Hn) as Hnode.
  unfold walk. rewrite Hn.
  destruct n as [nm c|nm ch|]; [| |done]; cbn [walk_at]; rewrite is_hidden_name; cbn [de_name];
    destruct (hidden_name (file_name target)); try reflexivity; cbn [oks].
  - rewrite filter_cons_True by exact Hk. reflexivity.
  - rewrite filter_cons_True by exact Hk. f_equal. apply filter_none.
    intros x Hx Hpx. destruct ch as [cs|]; [|cbn in Hx; by apply not_elem_of_nil in Hx].
    rewrite oks_flat_map in Hx. apply elem_of_flat_map in Hx as (c & _ & Hx).
    destruct (walk_at_prefix c _ _ x Hx) as (r & Hr & _).
    rewrite Hr, <- app_assoc in Hpx. cbn [app] in Hpx. rewrite parent_app_cons in Hpx.
    injection Hpx as Hpx. apply parent_length in Hk. rewrite <- Hpx, length_app in Hk. lia.
Qed.

(** C5 (as amended).  For a target resolving to the node [n] in a
    well-formed file system, the map built by [collect_entries]:
    - has a key for the target, holding its sorted non-hidden children
      (an empty list if it has none or if the target itself is hidden);
    - for every other directory entry of the walk, has a key exactly when
      that directory has a non-hidden child, holding its sorted non-hidden
      children; an empty directory below the target has no key;
    - has no other key than these and the target's parent;
    - under the target's parent holds exactly the target's own entry (no
      key there if the target's name is hidden). *)
Theorem collect_entries_directory_keys (to_lowercase : ustring -> ustring)
    (order : DirectoryChildren -> list path) (fs : node) (target : path) (n : node)
    (M : DirectoryChildren) :
  valid_order order -> wf_node fs = true -> lookup_node fs target = Some n ->
  collect_entries to_lowercase order fs target = Some M ->
  M !! target = Some (sort_by (entry_cmp to_lowercase)
                        (if hidden_name (file_name target) then [] else listed_children target n)) /\
  (forall e, e ∈ oks (walk fs target) -> de_is_dir e = true -> de_path e <> target ->
     exists d, lookup_node fs (de_path e) = Some d /\
       M !! de_path e = match listed_children (de_path e) d with
                        | [] => None
                        | l => Some (sort_by (entry_cmp to_lowercase) l)
                        end) /\
  (forall k l, M !! k = Some l ->
     k = target \/ parent target = Some k \/
     exists e, e ∈ oks (walk fs target) /\ de_is_dir e = true /\ de_path e = k) /\
  (forall k, parent target = Some k ->
     M !! k = if hidden_name (file_name target) then None
              else Some [{| de_path := target; de_name := file_name target;
                            de_is_dir := match n with NDir _ _ => true | _ => false end |}]).
Proof.
  intros Hord Hwf Hn Hc. pose proof (wf_node_lookup _ _ _ Hwf Hn) as Hwfn.
  unfold collect_entries in Hc. destruct push_all as [m|] eqn:Hpush; [|done].
  injection Hc as <-. rewrite sort_values_fmap by done.
  assert (Hw : walk fs target = walk_at target (file_name target) n) by (unfold walk; by rewrite Hn).
  split; [|split; [|split]].
  - rewrite lookup_fmap, (push_all_lookup _ _ _ target Hpush), lookup_singleton_eq. cbn.
    rewrite Hw. pose proof (walk_at_children n target (file_name target) [] Hwfn) as H.
    rewrite app_nil_r in H. rewrite H, reach_eq. by destruct (hidden_name (file_name target)).
  - intros e He Hdir Hne. pose proof He as He'. rewrite Hw in He'.
    destruct (walk_at_reach n _ _ _ Hwfn He') as (r & d & Hr & _ & Hlook & _).
    assert (Hreach : reach (file_name target) n r = Some d).
    { by destruct (walk_at_reach n _ _ _ Hwfn He') as (r' & d' & Hr' & Hre & Hlo & _);
        rewrite Hr in Hr'; apply app_inv_head in Hr' as <-; rewrite Hre, <- Hlook, Hlo. }
    exists d. rewrite Hr. split; [by rewrite (lookup_node_app fs n)|].
    rewrite lookup_fmap, (push_all_lookup _ _ _ (target ++ r) Hpush).
    rewrite lookup_singleton_ne by (intros Heq; apply Hne; by rewrite Hr).
    rewrite Hw, walk_at_children, Hreach by done.
    by destruct (listed_children (target ++ r) d).
  - intros k l Hk. rewrite lookup_fmap in Hk.
    destruct (m !! k) as [l0|] eqn:Hm; [|done]. clear Hk.
    rewrite (push_all_lookup _ _ _ k Hpush) in Hm.
    destruct (decide (target = k)) as [->|Hne]; [by left|right].
    rewrite lookup_singleton_ne in Hm by done.
    destruct (filter _ _) as [|e0 l1] eqn:Hf; [done|].
    assert (He0 : e0 ∈ filter (fun e => parent (de_path e) = Some k) (oks (walk fs target)))
      by (rewrite Hf; by left).
    apply list_elem_of_filter in He0 as [Hpar He0]. rewrite Hw in He0.
    destruct (walk_at_prefix n _ _ _ He0) as ([|y r] & Hr & _).
    + left. by rewrite Hr, app_nil_r in Hpar.
    + right. destruct (walk_at_parent_dir n _ _ _ y r He0 Hr) as (e & He & Hd & Hpe).
      exists e. rewrite Hw. split; [done|]. split; [done|].
      rewrite Hr, parent_app_cons in Hpar. injection Hpar as <-. exact Hpe.
  - intros k Hk. rewrite lookup_fmap, (push_all_lookup _ _ _ k Hpush).
    rewrite lookup_singleton_ne.
    2: { intros ->. apply parent_length in Hk. lia. }
    rewrite (walk_parent_key fs n target k Hn Hk).
    by destruct (hidden_name (file_name target)).
Qed.

Lemma collect_entries_directory_keys_witness :
  let fs := NDir "" (Some [NDir "r" (Some [NDir "a" (Some []);
                                          NDir "b" (Some [NFile "x" (Some [])]);
                                          NFile ".h" None])]) in
  exists n M,
    valid_order key_order /\ wf_node fs = true /\ lookup_node fs ["r"%string] = Some n /\
    collect_entries ascii_to_lowercase key_order fs ["r"%string] = Some M /\
    M !! ["r"%string] =
      Some (sort_by (entry_cmp ascii_to_lowercase)
              (if hidden_name (file_name ["r"%string]) then [] else listed_children ["r"%string] n)).
Proof.
  intros fs.
  exists (NDir "r" (Some [NDir "a" (Some []); NDir "b" (Some [NFile "x" (Some [])]); NFile ".h" None])).
  exists (default ∅ (collect_entries ascii_to_lowercase key_order fs ["r"%string])).
  assert (Hwf : wf_node fs = true) by (vm_compute; reflexivity).
  assert (Hn : lookup_node fs ["r"%string] =
    Some (NDir "r" (Some [NDir "a" (Some []); NDir "b" (Some [NFile "x" (Some [])]); NFile ".h" None])))
    by (vm_compute; reflexivity).
  assert (Hc : collect_entries ascii_to_lowercase key_order fs ["r"%string] =
    Some (default ∅ (collect_entries ascii_to_lowercase key_order fs ["r"%string])))
    by (vm_compute; reflexivity).
  split; [exact key_order_valid|]. split; [exact Hwf|]. split; [exact Hn|]. split; [exact Hc|].
  exact (proj1 (collect_entries_directory_keys ascii_to_lowercase key_order fs ["r"%string] _ _
                  key_order_valid Hwf Hn Hc)).
Defined.

(** C5 as stated fails: the empty directory [/r/a] is walked but gets no
    key, and the map has a key [/] outside the target's subtree. *)
Lemma collect_entries_omits_empty_dir :
  exists M,
    collect_entries ascii_to_lowercase key_order
      (NDir "" (Some [NDir "r" (Some [NDir "a" (Some [])])])) ["r"%string] = Some M /\
    {| de_path := ["r"; "a"]%string; de_name := "a"; de_is_dir := true |}
      ∈ oks (walk (NDir "" (Some [NDir "r" (Some [NDir "a" (Some [])])])) ["r"%string]) /\
    M !! ["r"; "a"]%string = None /\
    M !! [] = Some [{| de_path := ["r"%string]; de_name := "r"; de_is_dir := true |}].
Proof.
  exists (default ∅ (collect_entries ascii_to_lowercase key_order
      (NDir "" (Some [NDir "r" (Some [NDir "a" (Some [])])])) ["r"%string])).
  split; [vm_compute; reflexivity|]. split; [|split; vm_compute; reflexivity].
  assert (Hw : oks (walk (NDir "" (Some [NDir "r" (Some [NDir "a" (Some [])])])) ["r"%string]) =
    [{| de_path := ["r"%string]; de_name := "r"; de_is_dir := true |};
     {| de_path := ["r"; "a"]%string; de_name := "a"; de_is_dir := true |}])
    by (vm_compute; reflexivity).
  rewrite Hw. apply elem_of_cons. right. by apply elem_of_cons; left.
Qed.

(** ** The rendered lines *)

Lemma spec_line_eq (fs : node) (pre : list bool) (count i : nat) (e : DirEntry) :
  spec_line fs pre count i e =
    render_prefix pre (Nat.eqb i (count - 1)) ++ to_string_lossy (de_name e) ++
    (if is_dir_at fs (de_path e) then [] else sep ++ get_responsibility (open_at fs (de_path e))).
Proof. unfold spec_line, render_prefix. by rewrite <- app_assoc. Qed.

(** The loop of [print_tree]: the [j]-th child from position [i] prints its
    line, followed, for a directory, by the lines of the recursive call. *)
Lemma print_children_shape (recur : path -> list bool -> option (list ustring))
    (fs : node) (pre : list bool) (count : nat) (cs : list DirEntry) :
  forall (i : nat) (out : list ustring),
  print_children recur fs pre count i cs = Some out ->
  exists sub : nat -> list ustring,
    out = concat (imap (fun j e => spec_line fs pre count (i + j) e :: sub j) cs) /\
    forall j e, cs !! j = Some e ->
      if is_dir_at fs (de_path e)
      then recur (de_path e) (pre ++ [Nat.eqb (i + j) (count - 1)]) = Some (sub j)
      else sub j = [].
Proof.
  induction cs as [|e cs IH]; intros i out H; cbn [print_children] in H.
  - injection H as <-. exists (fun _ => []). split; [done|].
    intros j e Hj. by rewrite lookup_nil in Hj.
  - destruct (is_dir_at fs (de_path e)) eqn:Hd.
    + destruct (recur _ _) as [s0|] eqn:Hs; cbn in H; [|done].
      destruct (print_children recur fs pre count (S i) cs) as [tl|] eqn:Ht; cbn in H; [|done].
      injection H as <-. destruct (IH _ _ Ht) as (sub & -> & Hsub).
      exists (fun j => match j with O => s0 | S j' => sub j' end). split.
      * rewrite imap_cons. cbn [concat]. rewrite Nat.add_0_r, spec_line_eq, Hd, app_nil_r.
        cbn [app]. f_equal. f_equal. f_equal. apply imap_ext. intros j x _.
        unfold compose. by rewrite Nat.add_succ_r.
      * intros [|j] x Hj; cbn in Hj.
        -- injection Hj as <-. rewrite Hd, Nat.add_0_r. exact Hs.
        -- rewrite Nat.add_succ_r. exact (Hsub j x Hj).
    + destruct (print_children recur fs pre count (S i) cs) as [tl|] eqn:Ht; cbn in H; [|done].
      injection H as <-. destruct (IH _ _ Ht) as (sub & -> & Hsub).
      exists (fun j => match j with O => [] | S j' => sub j' end). split.
      * rewrite imap_cons. cbn [concat]. rewrite Nat.add_0_r, spec_line_eq, Hd.
        cbn [app]. f_equal. f_equal. apply imap_ext. intros j x _.
        unfold compose. by rewrite Nat.add_succ_r.
      * intros [|j] x Hj; cbn in Hj.
        -- injection Hj as <-. by rewrite Hd.
        -- rewrite Nat.add_succ_r. exact (Hsub j x Hj).
Qed.

(** C4. [print_tree] at [p] prints, for the [i]-th of the [count] children
    at [p] in order, the line [spec_line]: one four-character unit per
    ancestor level (["    "] if that ancestor was a last child, ["│   "]
    otherwise), then ["└── "] for the last child and ["├── "] otherwise,
    then the file name, and for a file [" - "] and the extractor's result.
    A directory's line is followed by the lines of its own subtree, printed
    with its last-child flag pushed on the ancestors; a file's line by
    nothing.  A path without a key prints nothing. *)
Theorem print_tree_line_format (fuel : nat) (fs : node) (M : DirectoryChildren) (p : path)
    (ancestors : list bool) (out : list ustring) :
  print_tree (S fuel) fs M p ancestors = Some out ->
  match M !! p with
  | None => out = []
  | Some cs =>
      exists sub : nat -> list ustring,
        out = concat (imap (fun i e => spec_line fs ancestors (length cs) i e :: sub i) cs) /\
        forall i e, cs !! i = Some e ->
          if is_dir_at fs (de_path e)
          then print_tree fuel fs M (de_path e) (ancestors ++ [Nat.eqb i (length cs - 1)]) = Some (sub i)
          else sub i = []
  end.
Proof.
  intros H. cbn [print_tree] in H. destruct (M !! p) as [cs|]; [|by injection H as <-].
  exact (print_children_shape _ fs ancestors (length cs) cs 0 out H).
Qed.

Lemma print_tree_line_format_witness :
  let fs := NDir "" (Some [NDir "r" (Some [NDir "x" (Some [NFile "y.rs" (Some [Some (u "// y desc")])])])]) in
  let M := default ∅ (collect_entries ascii_to_lowercase key_order fs ["r"%string]) in
  print_tree 3 fs M ["r"%string] [] =
    Some [[0x2514; 0x2500; 0x2500; 32] ++ u "x";
          u "    " ++ [0x2514; 0x2500; 0x2500; 32] ++ u "y.rs - y desc"] /\
  match M !! ["r"%string] with
  | None => [[0x2514; 0x2500; 0x2500; 32] ++ u "x";
             u "    " ++ [0x2514; 0x2500; 0x2500; 32] ++ u "y.rs - y desc"] = []
  | Some cs =>
      exists sub : nat -> list ustring,
        [[0x2514; 0x2500; 0x2500; 32] ++ u "x";
         u "    " ++ [0x2514; 0x2500; 0x2500; 32] ++ u "y.rs - y desc"] =
          concat (imap (fun i e => spec_line fs [] (length cs) i e :: sub i) cs) /\
        forall i e, cs !! i = Some e ->
          if is_dir_at fs (de_path e)
          then print_tree 2 fs M (de_path e) ([] ++ [Nat.eqb i (length cs - 1)]) = Some (sub i)
          else sub i = []
  end.
Proof.
  intros fs M.
  assert (H : print_tree 3 fs M ["r"%string] [] =
    Some [[0x2514; 0x2500; 0x2500; 32] ++ u "x";
          u "    " ++ [0x2514; 0x2500; 0x2500; 32] ++ u "y.rs - y desc"]) by (vm_compute; reflexivity).
  split; [exact H|].
  exact (print_tree_line_format 2 fs M ["r"%string] [] _ H).
Defined.

(** ** [main] terminates normally away from [/] *)







(** ** One printed line per walked entry *)

Lemma collect_entries_lookup_below (to_lowercase : ustring -> ustring)
    (order : DirectoryChildren -> list path) (fs : node) (target : path) (n : node)
    (M : DirectoryChildren) :
  valid_order order -> wf_node n = true -> lookup_node fs target = Some n ->
  collect_entries to_lowercase order fs target = Some M ->
  forall r, M !! (target ++ r) =
    match r with
    | [] => Some (sort_by (entry_cmp to_lowercase)
                    (match reach (file_name target) n r with
                     | Some d => listed_children (target ++ r) d | None => [] end))
    | _ :: _ =>
        match (match reach (file_name target) n r with
               | Some d => listed_children (target ++ r) d | None => [] end) with
        | [] => None
        | l => Some (sort_by (entry_cmp to_lowercase) l)
        end
    end.
Proof.
  intros Hord Hwfn Hn Hc r. unfold collect_entries in Hc.
  destruct push_all as [m|] eqn:Hpush; [|done]. injection Hc as <-.
  rewrite sort_values_fmap by done.
  rewrite lookup_fmap, (push_all_lookup _ _ _ (target ++ r) Hpush).
  assert (Hw : walk fs target = walk_at target (file_name target) n) by (unfold walk; by rewrite Hn).
  rewrite Hw, walk_at_children by done.
  destruct r as [|x r].
  - rewrite app_nil_r, lookup_singleton_eq. reflexivity.
  - rewrite lookup_singleton_ne.
    + destruct (reach (file_name target) n (x :: r)) as [d|]; [destruct (listed_children _ d)|];
        reflexivity.
    + intros H. apply (f_equal length) in H. rewrite length_app in H. cbn in H. lia.
Qed.

Lemma reach_name (nm : string) (n : node) (r : path) (d : node) :
  reach nm n r = Some d -> hidden_name (default nm (last r)) = false.
Proof.
  revert nm n. induction r as [|x r IH]; intros nm n H; rewrite reach_eq in H.
  - cbn [last default]. by destruct (hidden_name nm).
  - destruct (hidden_name nm); [done|]. rewrite last_cons_default. cbn [default].
    destruct n as [|? [cs|]|]; try done.
    destruct (List.find (child_named x) cs); [by apply (IH x n)|done].
Qed.

Lemma file_name_app (target r : path) :
  file_name (target ++ r) = default (file_name target) (last r).
Proof.
  induction r as [|x r _] using rev_ind.
  - by rewrite app_nil_r.
  - unfold file_name. by rewrite app_assoc, !last_snoc.
Qed.

Lemma lookup_child (fs : node) (k : path) (nm0 : string) (cs : list node) (c : node) :
  NoDup (map node_name (List.filter is_node cs)) ->
  lookup_node fs k = Some (NDir nm0 (Some cs)) -> c ∈ cs -> is_node c = true ->
  lookup_node fs (k ++ [node_name c]) = Some c.
Proof.
  intros Hnd Hk Hc Hn. rewrite (lookup_node_app fs _ k _ Hk). cbn [lookup_node].
  by rewrite (find_named_unique cs c Hnd Hc Hn).
Qed.

Lemma walk_child (fs : node) (k : path) (nm0 : string) (cs : list node) (c : node) :
  NoDup (map node_name (List.filter is_node cs)) ->
  lookup_node fs k = Some (NDir nm0 (Some cs)) -> c ∈ cs -> is_node c = true ->
  walk fs (k ++ [node_name c]) = walk_at (k ++ [node_name c]) (node_name c) c.
Proof.
  intros Hnd Hk Hc Hn. unfold walk. rewrite (lookup_child fs k nm0 cs c Hnd Hk Hc Hn).
  unfold file_name. by rewrite last_snoc.
Qed.

Lemma length_flat_map' {A B : Type} (g : A -> list B) (l : list A) :
  length (flat_map g l) = list_sum (map (fun x => length (g x)) l).
Proof. induction l as [|x l IH]; cbn; [done|]. by rewrite length_app, IH. Qed.

Lemma list_sum_cons' (x : nat) (l : list nat) : list_sum (x :: l) = (x + list_sum l)%nat.
Proof. reflexivity. Qed.

Lemma list_sum_oks_map {A : Type} (h : DirEntry -> nat) (f : A -> option DirEntry)
    (g : A -> nat) (l : list A) :
  (forall x, x ∈ l -> match f x with Some e => h e | None => 0%nat end = g x) ->
  list_sum (map h (oks (map f l))) = list_sum (map g l).
Proof.
  induction l as [|x l IH]; intros Hg; [done|]. cbn [map].
  assert (Hx := Hg x ltac:(by left)). assert (IH' := IH (fun y Hy => Hg y ltac:(by right))).
  rewrite list_sum_cons'. destruct (f x) as [e|]; cbn [oks map].
  - by rewrite list_sum_cons', IH', Hx.
  - by rewrite IH', <- Hx.
Qed.

Lemma list_sum_perm {A : Type} (h : A -> nat) (l1 l2 : list A) :
  l1 ≡ₚ l2 -> list_sum (map h l1) = list_sum (map h l2).
Proof.
  induction 1 as [| x l1 l2 _ IH | x y l | l1 l2 l3 _ IH1 _ IH2]; cbn [map];
    rewrite ?list_sum_cons'; lia.
Qed.

(** The walk from a non-hidden node counts the node and the walks of its
    listed children. *)
Lemma walk_count (fs : node) (k : path) (d : node) :
  wf_node fs = true -> lookup_node fs k = Some d -> hidden_name (file_name k) = false ->
  list_sum (map (fun e => length (oks (walk fs (de_path e)))) (listed_children k d)) =
    (length (oks (walk fs k)) - 1)%nat.
Proof.
  intros Hwf Hk Hh. pose proof (wf_node_lookup _ _ _ Hwf Hk) as Hwfd.
  assert (Hw : walk fs k = walk_at k (file_name k) d) by (unfold walk; by rewrite Hk).
  rewrite Hw. destruct d as [nm0 c|nm0 [cs|]|]; cbn [walk_at listed_children];
    rewrite ?is_hidden_name; cbn [de_name]; rewrite ?Hh; try reflexivity.
  apply wf_node_children in Hwfd as [Hnd _].
  cbn [oks length]. rewrite Nat.sub_succ, Nat.sub_0_r, oks_flat_map, length_flat_map'.
  apply list_sum_oks_map. intros c Hc.
  destruct (is_node c) eqn:Hn; [|by destruct c].
  pose proof (walk_child fs k nm0 cs c Hnd Hk Hc Hn) as Hwc.
  destruct c as [nm l|nm ch|]; [| |done]; cbn [child_entry node_name] in *;
    destruct (hidden_name nm) eqn:Hhn.
  - cbn [walk_at]. rewrite is_hidden_name. cbn [de_name]. by rewrite Hhn.
  - cbn [de_path]. by rewrite Hwc.
  - cbn [walk_at]. rewrite is_hidden_name. cbn [de_name]. by rewrite Hhn.
  - cbn [de_path]. by rewrite Hwc.
Qed.

(** A listed child's own walk has at least its own entry, and only that
    entry when it is not a directory. *)
Lemma listed_child_walk (fs : node) (k : path) (d : node) (e : DirEntry) :
  wf_node fs = true -> lookup_node fs k = Some d -> e ∈ listed_children k d ->
  if is_dir_at fs (de_path e)
  then (1 <= length (oks (walk fs (de_path e))))%nat
  else length (oks (walk fs (de_path e))) = 1%nat.
Proof.
  intros Hwf Hk He. pose proof (wf_node_lookup _ _ _ Hwf Hk) as Hwfd.
  destruct d as [|nm0 [cs|]|]; cbn [listed_children] in He;
    try by apply not_elem_of_nil in He.
  apply wf_node_children in Hwfd as [Hnd _].
  apply elem_of_oks, list_elem_of_In, in_map_iff in He as (c & Hce & Hc).
  apply list_elem_of_In in Hc.
  destruct (is_node c) eqn:Hn; [|by destruct c].
  pose proof (walk_child fs k nm0 cs c Hnd Hk Hc Hn) as Hwc.
  pose proof (lookup_child fs k nm0 cs c Hnd Hk Hc Hn) as Hlc.
  destruct c as [nm l|nm ch|]; [| |done]; cbn [child_entry node_name] in *;
    destruct (hidden_name nm) eqn:Hhn; try done; injection Hce as <-; cbn [de_path];
    unfold is_dir_at; rewrite Hlc, Hwc; cbn [walk_at]; rewrite is_hidden_name; cbn [de_name];
    rewrite Hhn; cbn; lia.
Qed.

Lemma print_children_length (recur : path -> list bool -> option (list ustring))
    (fs : node) (pre : list bool) (count : nat) (cs : list DirEntry) (h : DirEntry -> nat) :
  (forall e, e ∈ cs ->
     if is_dir_at fs (de_path e)
     then forall pre' o, recur (de_path e) pre' = Some o -> S (length o) = h e
     else h e = 1%nat) ->
  forall i out, print_children recur fs pre count i cs = Some out ->
  length out = list_sum (map h cs).
Proof.
  intros Hh. induction cs as [|e cs IH]; intros i out H; cbn [print_children] in H.
  - by injection H as <-.
  - assert (IH' := IH (fun e' He' => Hh e' ltac:(by right))).
    specialize (Hh e ltac:(by left)). cbn [map]. rewrite list_sum_cons'.
    destruct (is_dir_at fs (de_path e)).
    + destruct (recur _ _) as [s0|] eqn:Hs; cbn in H; [|done].
      destruct (print_children recur fs pre count (S i) cs) as [tl|] eqn:Ht; cbn in H; [|done].
      injection H as <-. cbn [length]. rewrite length_app, (IH' _ _ Ht), <- (Hh _ _ Hs). lia.
    + destruct (print_children recur fs pre count (S i) cs) as [tl|] eqn:Ht; cbn in H; [|done].
      injection H as <-. cbn [length]. rewrite (IH' _ _ Ht), Hh. lia.
Qed.

Lemma print_tree_length (to_lowercase : ustring -> ustring)
    (order : DirectoryChildren -> list path) (fs : node) (target : path) (n : node)
    (M : DirectoryChildren) :
  valid_order order -> wf_node fs = true -> lookup_node fs target = Some n ->
  collect_entries to_lowercase order fs target = Some M ->
  forall fuel r d pre out,
    reach (file_name target) n r = Some d -> lookup_node n r = Some d ->
    print_tree fuel fs M (target ++ r) pre = Some out ->
    length out = (length (oks (walk fs (target ++ r))) - 1)%nat.
Proof.
  intros Hord Hwf Hn Hc. pose proof (wf_node_lookup _ _ _ Hwf Hn) as Hwfn.
  induction fuel as [|f IH]; intros r d pre out Hreach Hlook H; cbn [print_tree] in H; [done|].
  pose proof (collect_entries_lookup_below _ _ _ _ _ _ Hord Hwfn Hn Hc r) as HM.
  rewrite Hreach in HM.
  assert (Hlk : lookup_node fs (target ++ r) = Some d) by by rewrite (lookup_node_app fs n).
  assert (Hh : hidden_name (file_name (target ++ r)) = false)
    by (rewrite file_name_app; exact (reach_name _ _ _ _ Hreach)).
  pose proof (walk_count fs (target ++ r) d Hwf Hlk Hh) as Hcount.
  destruct (M !! (target ++ r)) as [L|] eqn:HL.
  2: { injection H as <-. destruct r as [|x r]; [done|].
       destruct (listed_children (target ++ x :: r) d) eqn:Hl; [|done].
       rewrite <- Hcount. reflexivity. }
  assert (HLs : L = sort_by (entry_cmp to_lowercase) (listed_children (target ++ r) d)).
  { destruct r as [|x r]; [congruence|]. destruct (listed_children (target ++ x :: r) d); congruence. }
  enough (Hall : forall e, e ∈ L ->
            if is_dir_at fs (de_path e)
            then forall pre' o, print_tree f fs M (de_path e) pre' = Some o ->
                   S (length o) = length (oks (walk fs (de_path e)))
            else length (oks (walk fs (de_path e))) = 1%nat).
  { rewrite (print_children_length _ fs pre (length L) L _ Hall 0 out H).
    rewrite HLs, (list_sum_perm _ _ _ (sort_by_perm _ _)). exact Hcount. }
  intros e He.
  assert (Hel : e ∈ listed_children (target ++ r) d) by (rewrite HLs, sort_by_perm in He; exact He).
  pose proof (listed_child_walk fs _ d e Hwf Hlk Hel) as Hcw.
  destruct (is_dir_at fs (de_path e)); [|exact Hcw].
  intros pre' o Ho.
  destruct (collect_entries_from_walk _ _ _ _ _ _ _ _ Hc HL He) as [Hew _].
  assert (Hw : walk fs target = walk_at target (file_name target) n) by (unfold walk; by rewrite Hn).
  rewrite Hw in Hew.
  destruct (walk_at_reach n _ _ _ Hwfn Hew) as (r' & d' & Hr' & Hreach' & Hlook' & _).
  rewrite Hr' in Ho |- *. rewrite Hr' in Hcw.
  rewrite (IH r' d' pre' o Hreach' Hlook' Ho). lia.
Qed.

(** X2.  In a well-formed file system, [main] prints exactly one line per
    entry of the filtered walk other than the target itself: every
    non-hidden entry below the target is printed once, and nothing else. *)
Theorem main_line_count (to_lowercase : ustring -> ustring)
    (order : DirectoryChildren -> list path) (fs : node) (target : path) (n : node)
    (out : list ustring) :
  valid_order order -> wf_node fs = true -> lookup_node fs target = Some n ->
  main to_lowercase order fs (Some target) = Printed out ->
  length out = (length (oks (walk fs target)) - 1)%nat.
Proof.
  intros Hord Hwf Hn H. unfold main in H.
  destruct (collect_entries to_lowercase order fs target) as [M|] eqn:Hc; [|done].
  destruct print_tree as [o|] eqn:Hp; [|done]. injection H as <-.
  pose proof (wf_node_lookup _ _ _ Hwf Hn) as Hwfn.
  destruct (reach (file_name target) n []) as [d|] eqn:Hreach.
  - assert (Hd : d = n) by (rewrite reach_eq in Hreach; destruct hidden_name; congruence). subst d.
    rewrite <- (app_nil_r target) in Hp.
    pose proof (print_tree_length _ _ _ _ _ _ Hord Hwf Hn Hc _ [] n [] o Hreach eq_refl Hp) as X.
    by rewrite app_nil_r in X.
  - pose proof (collect_entries_lookup_below _ _ _ _ _ _ Hord Hwfn Hn Hc []) as HM.
    rewrite Hreach, app_nil_r in HM. unfold print_fuel in Hp. cbn [print_tree] in Hp.
    rewrite HM in Hp. cbn in Hp. injection Hp as <-.
    rewrite reach_eq in Hreach. destruct (hidden_name (file_name target)) eqn:Hh; [|done].
    unfold walk. rewrite Hn.
    destruct n; cbn [walk_at]; rewrite ?is_hidden_name; cbn [de_name]; rewrite ?Hh; reflexivity.
Qed.

Lemma main_line_count_witness :
  let fs := NDir "" (Some [NDir "r" (Some [NFile "b.txt" (Some [Some (u "// file b")]);
                                          NFile ".secret" None; NDir "a" (Some [])])]) in
  exists out,
    valid_order key_order /\ wf_node fs = true /\ lookup_node fs ["r"%string] <> None /\
    main ascii_to_lowercase key_order fs (Some ["r"%string]) = Printed out /\
    length out = (length (oks (walk fs ["r"%string])) - 1)%nat.
Proof.
  intros fs.
  assert (Hwf : wf_node fs = true) by (vm_compute; reflexivity).
  assert (Hn : lookup_node fs ["r"%string] =
    Some (NDir "r" (Some [NFile "b.txt" (Some [Some (u "// file b")]); NFile ".secret" None;
                          NDir "a" (Some [])]))) by reflexivity.
  assert (Hm : main ascii_to_lowercase key_order fs (Some ["r"%string]) =
    Printed [[0x251C; 0x2500; 0x2500; 32] ++ u "a";
             [0x2514; 0x2500; 0x2500; 32] ++ u "b.txt - file b"]) by (vm_compute; reflexivity).
  eexists. split; [exact key_order_valid|]. split; [exact Hwf|]. split; [by rewrite Hn|].
  split; [exact Hm|].
  exact (main_line_count _ _ _ _ _ _ key_order_valid Hwf Hn Hm).
Defined.

(** ** Stability and uniqueness of the sort *)

Section SortStable.
Context {A : Type} (cmp : A -> A -> comparison).
Hypothesis cmp_opp : forall a b, cmp b a = CompOpp (cmp a b).
Hypothesis cmp_le_trans : forall a b c, cmp a b <> Gt -> cmp b c <> Gt -> cmp a c <> Gt.

Lemma cmp_eq_trans x y a : cmp x a = Eq -> cmp y a = Eq -> cmp x y = Eq.
Proof.
  intros Hx Hy.
  assert (H1 : cmp x y <> Gt).
  { apply (cmp_le_trans x a y); [congruence|]. rewrite cmp_opp, Hy. discriminate. }
  assert (H2 : cmp y x <> Gt).
  { apply (cmp_le_trans y a x); [congruence|]. rewrite cmp_opp, Hx. discriminate. }
  rewrite cmp_opp in H2. destruct (cmp x y); done.
Qed.

Lemma le_by_refl x : le_by cmp x x.
Proof. unfold le_by. intros E. pose proof (cmp_opp x x) as H. rewrite E in H. discriminate. Qed.

Lemma insert_by_split x l :
  exists l1 l2, l = l1 ++ l2 /\ insert_by cmp x l = l1 ++ x :: l2 /\
    Forall (fun y => cmp x y = Gt) l1.
Proof.
  induction l as [|y l IH]; cbn [insert_by].
  - by exists [], [].
  - destruct (cmp x y) eqn:E.
    + by exists [], (y :: l).
    + by exists [], (y :: l).
    + destruct IH as (l1 & l2 & -> & -> & Hall).
      exists (y :: l1), l2. split; [done|]. split; [done|]. by constructor.
Qed.

Lemma filter_insert_by a x l :
  List.filter (equiv_to cmp a) (insert_by cmp x l) =
    if equiv_to cmp a x then x :: List.filter (equiv_to cmp a) l else List.filter (equiv_to cmp a) l.
Proof.
  destruct (insert_by_split x l) as (l1 & l2 & -> & -> & Hall).
  rewrite !List.filter_app. cbn [List.filter].
  destruct (equiv_to cmp a x) eqn:Hx; [|done].
  assert (Hnil : List.filter (equiv_to cmp a) l1 = []).
  { induction Hall as [|y l1 Hy _ IH]; [done|]. cbn [List.filter].
    destruct (equiv_to cmp a y) eqn:Ey; [|exact IH]. exfalso.
    unfold equiv_to in Hx, Ey. destruct (cmp x a) eqn:Exa, (cmp y a) eqn:Eya; try done.
    rewrite (cmp_eq_trans x y a Exa Eya) in Hy. discriminate. }
  by rewrite Hnil.
Qed.

Lemma filter_sort_by a l :
  List.filter (equiv_to cmp a) (sort_by cmp l) = List.filter (equiv_to cmp a) l.
Proof.
  induction l as [|x l IH]; [done|]. cbn [sort_by List.filter].
  rewrite filter_insert_by, IH. done.
Qed.

Lemma strongly_sorted_perm_eq l1 l2 :
  StronglySorted (le_by cmp) l1 -> StronglySorted (le_by cmp) l2 -> l1 ≡ₚ l2 ->
  (forall a b, a ∈ l1 -> b ∈ l1 -> cmp a b = Eq -> a = b) ->
  l1 = l2.
Proof.
  intros Hs1. revert l2. induction Hs1 as [|x t1 Ht1 IH Hx1]; intros l2 Hs2 Hp Huniq.
  - symmetry. by apply Permutation_nil.
  - destruct l2 as [|y t2]; [by apply Permutation_sym, Permutation_nil in Hp|].
    inversion Hs2 as [|? ? Ht2 Hy2]; subst.
    assert (Hxy : le_by cmp x y).
    { assert (Hy : y ∈ x :: t1) by (rewrite Hp; by left).
      apply elem_of_cons in Hy as [->|Hy]; [apply le_by_refl|].
      rewrite Forall_forall in Hx1. by apply Hx1. }
    assert (Hyx : le_by cmp y x).
    { assert (Hx : x ∈ y :: t2) by (rewrite <- Hp; by left).
      apply elem_of_cons in Hx as [->|Hx]; [exact Hxy|].
      rewrite Forall_forall in Hy2. by apply Hy2. }
    assert (Hxy' : x = y).
    { apply Huniq; [by left|rewrite Hp; by left|].
      unfold le_by in Hxy, Hyx. rewrite cmp_opp in Hyx. destruct (cmp x y); done. }
    subst y. f_equal. apply IH; [done| |].
    + by apply Permutation_cons_inv in Hp.
    + intros a b Ha Hb. apply Huniq; by right.
Qed.
End SortStable.

(** X3: the sort of [collect_entries] is stable: among the entries that compare
    equal to a given entry (same kind, same lower-cased name), the sorted list keeps
    them in the order in which the walk produced them. *)
Theorem sort_by_entry_cmp_stable (to_lowercase : ustring -> ustring) (a : DirEntry)
    (l : list DirEntry) :
  List.filter (equiv_to (entry_cmp to_lowercase) a) (sort_by (entry_cmp to_lowercase) l) =
  List.filter (equiv_to (entry_cmp to_lowercase) a) l.
Proof.
  apply filter_sort_by; [apply entry_cmp_opp|apply entry_cmp_le_trans].
Qed.

(** X4: when no two distinct entries of a list compare equal, the sorted list does
    not depend on the order of the input: two permutations of it sort to the same
    list. *)
Theorem sort_by_entry_cmp_order_independent (to_lowercase : ustring -> ustring)
    (l1 l2 : list DirEntry) :
  l1 ≡ₚ l2 ->
  (forall a b, a ∈ l1 -> b ∈ l1 -> entry_cmp to_lowercase a b = Eq -> a = b) ->
  sort_by (entry_cmp to_lowercase) l1 = sort_by (entry_cmp to_lowercase) l2.
Proof.
  intros Hp Huniq.
  pose proof (entry_cmp_opp to_lowercase) as Hopp.
  pose proof (entry_cmp_le_trans to_lowercase) as Htr.
  apply (strongly_sorted_perm_eq (entry_cmp to_lowercase) Hopp).
  - apply Sorted_StronglySorted; [intros x y z; apply Htr|apply sort_by_sorted, Hopp].
  - apply Sorted_StronglySorted; [intros x y z; apply Htr|apply sort_by_sorted, Hopp].
  - by rewrite !sort_by_perm, Hp.
  - intros a b Ha Hb. rewrite sort_by_perm in Ha, Hb. by apply Huniq.
Qed.

Lemma sort_by_entry_cmp_order_independent_witness :
  let e1 := {| de_path := ["r"; "b.txt"]%string; de_name := "b.txt"%string; de_is_dir := false |} in
  let e2 := {| de_path := ["r"; "a"]%string; de_name := "a"%string; de_is_dir := true |} in
  [e1; e2] ≡ₚ [e2; e1] /\
  (forall a b, a ∈ [e1; e2] -> b ∈ [e1; e2] -> entry_cmp ascii_to_lowercase a b = Eq -> a = b) /\
  sort_by (entry_cmp ascii_to_lowercase) [e1; e2] = sort_by (entry_cmp ascii_to_lowercase) [e2; e1].
Proof.
  intros e1 e2.
  assert (Hp : [e1; e2] ≡ₚ [e2; e1]) by apply perm_swap.
  assert (Hu : forall a b, a ∈ [e1; e2] -> b ∈ [e1; e2] ->
            entry_cmp ascii_to_lowercase a b = Eq -> a = b).
  { intros a b Ha Hb. apply list_elem_of_In in Ha, Hb.
    destruct Ha as [<-|[<-|[]]], Hb as [<-|[<-|[]]]; vm_compute; congruence. }
  split; [exact Hp|]. split; [exact Hu|].
  exact (sort_by_entry_cmp_order_independent ascii_to_lowercase _ _ Hp Hu).
Defined.

(** ** Shape of the extracted description *)

Lemma last_rev' {T : Type} (l : list T) : last (rev l) = head l.
Proof. destruct l as [|x l]; [done|]. cbn [rev head]. apply last_snoc. Qed.

Lemma trim_last (s : ustring) c : last (trim s) = Some c -> is_whitespace c = false.
Proof.
  unfold trim. rewrite last_rev'.
  destruct (trim_start_matches_split is_whitespace
              (rev (trim_start_matches is_whitespace s))) as (pfx & _ & _ & Hhd).
  revert Hhd.
  destruct (trim_start_matches is_whitespace (rev (trim_start_matches is_whitespace s)))
    as [|d t]; cbn [head]; [done|].
  intros Hhd [= <-]. exact Hhd.
Qed.

Lemma fallback_shape :
  (forall c, head fallback = Some c -> comment_char c = false) /\
  (forall c, last fallback = Some c -> is_whitespace c = false).
Proof. split; intros c Hc; vm_compute in Hc; injection Hc as <-; reflexivity. Qed.

(** X5: whatever the file holds, the description [get_responsibility] returns never
    starts with whitespace, [/] or [#], and never ends with whitespace; this holds
    for the fallback text as well as for an extracted comment. *)
Theorem get_responsibility_trimmed (file : option (list (option ustring))) :
  (forall c, head (get_responsibility file) = Some c -> comment_char c = false) /\
  (forall c, last (get_responsibility file) = Some c -> is_whitespace c = false).
Proof.
  destruct file as [ls|]; cbn [get_responsibility]; [|exact fallback_shape].
  rewrite scan_lines_first_nonblank.
  destruct (first_nonblank ls) as [l|]; [|exact fallback_shape].
  destruct (has_marker (trim l)); [|exact fallback_shape].
  destruct (trim_start_matches_split comment_char (trim l)) as (pfx & Heq & _ & Hhd).
  split.
  - intros c Hc. destruct (trim_start_matches comment_char (trim l)); [done|].
    cbn [head] in Hc. by injection Hc as <-.
  - intros c Hc. apply (trim_last l). rewrite Heq. apply last_app_Some. by left.
Qed.

(** ** Decoding of file names *)

Lemma mapM_id_default (l : list (option N)) (t : ustring) :
  mapM id l = Some t -> map (default 0xFFFD) l = t.
Proof.
  revert t. induction l as [|[c|] l IH]; intros t H; cbn in H.
  - by injection H as <-.
  - destruct (mapM id l) as [t'|] eqn:E; cbn in H; [|discriminate].
    injection H as <-. cbn. f_equal. by apply IH.
  - discriminate.
Qed.

Lemma utf8_chunks_ascii (fuel : nat) (bs : list N) :
  (length bs <= fuel)%nat -> Forall (fun b => b < 0x80) bs -> utf8_chunks fuel bs = map Some bs.
Proof.
  revert fuel. induction bs as [|b bs IH]; intros fuel Hlen Hall; [by destruct fuel|].
  destruct fuel as [|fuel]; [cbn in Hlen; lia|].
  inversion Hall as [|? ? Hb Hall']; subst.
  cbn [utf8_chunks]. unfold utf8_next, utf8_char_width.
  assert (Hlt : (b <? 0x80) = true) by (apply N.ltb_lt; exact Hb).
  rewrite Hlt. cbn [drop Nat.sub]. rewrite IH; [done| |done]. cbn in Hlen. lia.
Qed.

Lemma mapM_id_map_Some (bs : list N) : mapM id (map Some bs) = Some bs.
Proof. induction bs as [|b bs IH]; [done|]. cbn. rewrite IH. done. Qed.



(** X7: a name made of ASCII bytes decodes to itself: [to_str] accepts it and
    returns its bytes, and [to_string_lossy] returns the same bytes. *)
Theorem ascii_name_decodes (s : string) :
  Forall (fun b => b < 0x80) (os_bytes s) ->
  to_str s = Some (os_bytes s) /\ to_string_lossy s = os_bytes s.
Proof.
  intros Hall. unfold to_str, to_string_lossy, decode.
  rewrite utf8_chunks_ascii by done. split; [apply mapM_id_map_Some|].
  rewrite map_map. cbn. apply map_id.
Qed.

Lemma ascii_name_decodes_witness :
  Forall (fun b => b < 0x80) (os_bytes "main.rs"%string) /\
  to_str "main.rs"%string = Some (os_bytes "main.rs"%string) /\
  to_string_lossy "main.rs"%string = os_bytes "main.rs"%string.
Proof.
  assert (H : Forall (fun b => b < 0x80) (os_bytes "main.rs"%string)).
  { cbn. repeat constructor; vm_compute; reflexivity. }
  split; [exact H|]. exact (ascii_name_decodes _ H).
Defined.

(** X8: for a name made of ASCII bytes, [is_hidden] holds exactly when the first
    byte of the name is ['.']. *)
Theorem is_hidden_ascii (e : DirEntry) :
  Forall (fun b => b < 0x80) (os_bytes (de_name e)) ->
  is_hidden e = true <-> head (os_bytes (de_name e)) = Some 46.
Proof.
  intros Hall. unfold is_hidden.
  assert (Hs : to_str (de_name e) = Some (os_bytes (de_name e))).
  { unfold to_str, decode. rewrite utf8_chunks_ascii by done. apply mapM_id_map_Some. }
  rewrite Hs. destruct (os_bytes (de_name e)) as [|b bs]; cbn [starts_with head].
  - split; discriminate.
  - rewrite andb_true_r. split.
    + intros H. apply N.eqb_eq in H. by subst.
    + intros [= ->]. apply N.eqb_refl.
Qed.

Lemma is_hidden_ascii_witness :
  let e := {| de_path := ["r"; ".git"]%string; de_name := ".git"%string; de_is_dir := true |} in
  Forall (fun b => b < 0x80) (os_bytes (de_name e)) /\
  (is_hidden e = true <-> head (os_bytes (de_name e)) = Some 46).
Proof.
  intros e.
  assert (H : Forall (fun b => b < 0x80) (os_bytes (de_name e))).
  { cbn. repeat constructor; vm_compute; reflexivity. }
  split; [exact H|]. exact (is_hidden_ascii e H).
Defined.

(** ** Grouping of the walked entries by parent *)

Lemma sort_values_lookup_Some (to_lowercase : ustring -> ustring) (ks : list path)
    (m : DirectoryChildren) (k : path) (l0 : list DirEntry) :
  m !! k = Some l0 -> exists l, sort_values to_lowercase ks m !! k = Some l /\ l ≡ₚ l0.
Proof.
  unfold sort_values. revert m l0. induction ks as [|k0 ks IH]; intros m l0 H; cbn [foldl].
  - by exists l0.
  - assert (H' : exists l1, alter (sort_by (entry_cmp to_lowercase)) k0 m !! k = Some l1 /\ l1 ≡ₚ l0).
    { rewrite lookup_alter. case_decide as Heq.
      - subst k0. rewrite H. cbn. eexists. split; [reflexivity|]. apply sort_by_perm.
      - by exists l0. }
    destruct H' as (l1 & H1 & Hp1). destruct (IH _ _ H1) as (l & Hl & Hp).
    exists l. split; [exact Hl|]. by rewrite Hp, Hp1.
Qed.

(** X9: the map [collect_entries] builds groups the walked entries by parent:
    an entry is in the list under key [k] exactly when the walk yields it and
    its parent directory is [k]. *)
Theorem collect_entries_groups_by_parent (to_lowercase : ustring -> ustring)
    (order : DirectoryChildren -> list path) (fs : node) (target : path)
    (M : DirectoryChildren) (k : path) (e : DirEntry) :
  collect_entries to_lowercase order fs target = Some M ->
  (exists l, M !! k = Some l /\ e ∈ l) <->
  (e ∈ oks (walk fs target) /\ parent (de_path e) = Some k).
Proof.
  intros Hc. split.
  - intros (l & Hk & He). exact (collect_entries_from_walk _ _ _ _ _ _ _ _ Hc Hk He).
  - intros [Hw Hp]. unfold collect_entries in Hc.
    destruct push_all as [m0|] eqn:Hpush; [|done]. injection Hc as <-.
    assert (Hin : exists l0, m0 !! k = Some l0 /\ e ∈ l0).
    { rewrite (push_all_lookup _ _ _ k Hpush), lookup_singleton.
      assert (Hf : e ∈ filter (fun e => parent (de_path e) = Some k) (oks (walk fs target)))
        by (by apply list_elem_of_filter).
      case_decide.
      - eexists. split; [reflexivity|]. cbn. exact Hf.
      - destruct (filter _ _) as [|x xs] eqn:E; [by apply not_elem_of_nil in Hf|].
        by eexists. }
    destruct Hin as (l0 & Hl0 & He).
    destruct (sort_values_lookup_Some to_lowercase (order m0) m0 k l0 Hl0) as (l & Hl & Hperm).
    exists l. split; [exact Hl|]. by rewrite Hperm.
Qed.

Lemma collect_entries_groups_by_parent_witness :
  let fs := NDir "" (Some [NDir "r" (Some [NFile "b.txt" None; NDir "a" (Some [NFile "x" None])])]) in
  let e := {| de_path := ["r"; "a"; "x"]%string; de_name := "x"%string; de_is_dir := false |} in
  exists M,
    collect_entries ascii_to_lowercase key_order fs ["r"%string] = Some M /\
    ((exists l, M !! ["r"; "a"]%string = Some l /\ e ∈ l) <->
     (e ∈ oks (walk fs ["r"%string]) /\ parent (de_path e) = Some ["r"; "a"]%string)).
Proof.
  intros fs e.
  exists (default ∅ (collect_entries ascii_to_lowercase key_order fs ["r"%string])).
  assert (Hc : collect_entries ascii_to_lowercase key_order fs ["r"%string] =
    Some (default ∅ (collect_entries ascii_to_lowercase key_order fs ["r"%string])))
    by (vm_compute; reflexivity).
  split; [exact Hc|].
  exact (collect_entries_groups_by_parent _ _ _ _ _ _ e Hc).
Defined.

(** ** No path twice in a group *)

Lemma NoDup_map_filter {A B : Type} (f : A -> B) (P : A -> Prop) `{!forall x, Decision (P x)}
    (l : list A) :
  NoDup (map f l) -> NoDup (map f (filter P l)).
Proof.
  induction l as [|x l IH]; intros Hnd; [constructor|]. cbn [map] in Hnd.
  apply NoDup_cons in Hnd as [Hx Hnd]. rewrite filter_cons.
  case_decide; [|by apply IH]. cbn [map]. constructor; [|by apply IH].
  intros Hin. apply Hx. apply list_elem_of_In in Hin. apply list_elem_of_In.
  apply in_map_iff in Hin as (y & Hy & Hin). apply in_map_iff. exists y. split; [done|].
  apply list_elem_of_In in Hin. apply list_elem_of_filter in Hin as [_ Hin].
  by apply list_elem_of_In.
Qed.

Lemma NoDup_flat_map_keyed {A B K : Type} (f : A -> list B) (P : A -> bool) (g : A -> K)
    (key : B -> option K) (cs : list A) :
  NoDup (map g (List.filter P cs)) ->
  (forall c, P c = false -> f c = []) ->
  (forall c x, c ∈ cs -> x ∈ f c -> key x = Some (g c)) ->
  (forall c, c ∈ cs -> NoDup (f c)) ->
  NoDup (flat_map f cs).
Proof.
  induction cs as [|c cs IH]; intros Hnd Hnil Hkey Hf; cbn [flat_map]; [constructor|].
  assert (IH' : NoDup (flat_map f cs)).
  { apply IH; [|done|intros; apply Hkey; [by right|done]|intros; apply Hf; by right].
    cbn [List.filter] in Hnd. destruct (P c); [by apply NoDup_cons in Hnd as [_ ?]|done]. }
  destruct (P c) eqn:Hc; [|by rewrite Hnil].
  cbn [List.filter] in Hnd. rewrite Hc in Hnd. cbn [map] in Hnd.
  apply NoDup_cons in Hnd as [Hg _].
  apply NoDup_app. split; [apply Hf; by left|]. split; [|exact IH'].
  intros x Hx Hx'. apply list_elem_of_In, in_flat_map in Hx' as (c' & Hc' & Hx').
  apply list_elem_of_In in Hc', Hx'.
  pose proof (Hkey c x ltac:(by left) Hx) as K1.
  pose proof (Hkey c' x ltac:(by right) Hx') as K2.
  rewrite K1 in K2. injection K2 as K2.
  destruct (P c') eqn:Hc''; [|rewrite (Hnil c' Hc'') in Hx'; by apply not_elem_of_nil in Hx'].
  apply Hg. rewrite K2. apply list_elem_of_In. apply in_map. apply filter_In.
  split; [by apply list_elem_of_In|done].
Qed.

Lemma map_flat_map' {A B C : Type} (f : B -> C) (g : A -> list B) (l : list A) :
  map f (flat_map g l) = flat_map (fun x => map f (g x)) l.
Proof. induction l as [|x l IH]; cbn; [done|]. by rewrite map_app, IH. Qed.

Lemma walk_at_nodup (n : node) :
  forall (p : path) (nm : string), wf_node n = true ->
    NoDup (map de_path (oks (walk_at p nm n))).
Proof.
  induction n as [nm0 c|nm0|nm0 cs IHcs|] using node_ind'; intros p nm Hwf; cbn [walk_at].
  - destruct (is_hidden _); cbn; [constructor|]. repeat constructor. by intros ?%not_elem_of_nil.
  - destruct (is_hidden _); cbn; [constructor|]. repeat constructor. by intros ?%not_elem_of_nil.
  - apply wf_node_children in Hwf as [Hnd Hwfc]. rewrite Forall_forall in IHcs.
    destruct (is_hidden _); cbn [oks map]; [constructor|].
    rewrite oks_flat_map, map_flat_map'. constructor.
    + intros Hin. apply list_elem_of_In, in_flat_map in Hin as (c & _ & Hin).
      apply list_elem_of_In, list_elem_of_fmap in Hin as (e & He & Hin).
      destruct (walk_at_prefix c _ _ e Hin) as (r & Hp & _).
      assert (Hl : length (de_path e) = length p) by (by rewrite <- He).
      rewrite Hp, !length_app in Hl. cbn in Hl. lia.
    + apply (NoDup_flat_map_keyed _ is_node node_name (fun x => x !! length p)); [exact Hnd| | |].
      * intros [| |] Hc; [done|done|]. reflexivity.
      * intros c x Hc Hx. apply list_elem_of_fmap in Hx as (e & -> & He).
        destruct (walk_at_prefix c _ _ e He) as (r & Hp & _).
        rewrite Hp, <- app_assoc. cbn [app]. apply list_lookup_middle. reflexivity.
      * intros c Hc. apply IHcs; [done|]. by apply Hwfc.
  - cbn. constructor.
Qed.

Lemma walk_nodup (fs : node) (target : path) :
  wf_node fs = true -> NoDup (map de_path (oks (walk fs target))).
Proof.
  intros Hwf. unfold walk. destruct (lookup_node fs target) as [n|] eqn:Hn; [|cbn; constructor].
  apply walk_at_nodup. by apply (wf_node_lookup fs n target).
Qed.

(** X10: when no directory lists two objects under the same name, no list of the
    map [collect_entries] builds holds two entries with the same path: no child is
    printed twice under its parent. *)
Theorem collect_entries_group_nodup (to_lowercase : ustring -> ustring)
    (order : DirectoryChildren -> list path) (fs : node) (target : path)
    (M : DirectoryChildren) (k : path) (l : list DirEntry) :
  wf_node fs = true ->
  collect_entries to_lowercase order fs target = Some M ->
  M !! k = Some l -> NoDup (map de_path l).
Proof.
  intros Hwf Hc Hk. unfold collect_entries in Hc.
  destruct push_all as [m0|] eqn:Hpush; [|done]. injection Hc as <-.
  apply sort_values_lookup in Hk as (l0 & Hk0 & Hperm).
  assert (Hpm : map de_path l ≡ₚ map de_path l0) by (apply Permutation_map; exact Hperm).
  rewrite Hpm.
  rewrite (push_all_lookup _ _ _ k Hpush), lookup_singleton in Hk0.
  pose proof (NoDup_map_filter de_path (fun e => parent (de_path e) = Some k) _
                (walk_nodup fs target Hwf)) as Hnd.
  case_decide.
  - injection Hk0 as <-. exact Hnd.
  - destruct (filter _ _) eqn:Hf; [done|]. injection Hk0 as <-. exact Hnd.
Qed.

Lemma collect_entries_group_nodup_witness :
  let fs := NDir "" (Some [NDir "r" (Some [NFile "b.txt" None; NDir "a" (Some [NFile "x" None])])]) in
  exists M l,
    wf_node fs = true /\
    collect_entries ascii_to_lowercase key_order fs ["r"%string] = Some M /\
    M !! ["r"%string] = Some l /\ NoDup (map de_path l).
Proof.
  intros fs.
  set (M := default ∅ (collect_entries ascii_to_lowercase key_order fs ["r"%string])).
  exists M, (default [] (M !! ["r"%string])).
  assert (Hwf : wf_node fs = true) by (vm_compute; reflexivity).
  assert (Hc : collect_entries ascii_to_lowercase key_order fs ["r"%string] = Some M)
    by (vm_compute; reflexivity).
  assert (Hk : M !! ["r"%string] = Some (default [] (M !! ["r"%string])))
    by (vm_compute; reflexivity).
  split; [exact Hwf|]. split; [exact Hc|]. split; [exact Hk|].
  exact (collect_entries_group_nodup _ _ _ _ _ _ _ Hwf Hc Hk).
Defined.

(** ** Ties of the comparator *)

Lemma ustr_cmp_eq (a b : ustring) : ustr_cmp a b = Eq <-> a = b.
Proof.
  split.
  - revert b. induction a as [|x a IH]; intros [|y b]; cbn [ustr_cmp]; try done.
    destruct (N.compare_spec x y); try done. subst. intros H. f_equal. by apply IH.
  - intros ->. induction b as [|y b IH]; [done|]. cbn [ustr_cmp]. by rewrite N.compare_refl.
Qed.

(** X11: the comparator of [collect_entries] treats two entries as equal exactly
    when both are directories or both are not, and their lower-cased names are the
    same string; entries differing in kind or in lower-cased name are always
    strictly ordered. *)
Theorem entry_cmp_eq_iff (to_lowercase : ustring -> ustring) (a b : DirEntry) :
  entry_cmp to_lowercase a b = Eq <->
  de_is_dir a = de_is_dir b /\ lower_name to_lowercase a = lower_name to_lowercase b.
Proof.
  unfold entry_cmp. rewrite <- ustr_cmp_eq.
  destruct (de_is_dir a), (de_is_dir b); cbn; intuition discriminate.
Qed.

(** ** Length of the lossy decoding *)

Lemma utf8_chunks_length (fuel : nat) (bs : list N) :
  (length (utf8_chunks fuel bs) <= length bs)%nat.
Proof.
  revert bs. induction fuel as [|f IH]; intros [|b rest]; cbn [utf8_chunks length]; try lia.
  destruct (utf8_next b rest) as [[c w]|k]; cbn [length].
  - specialize (IH (drop (w - 1) rest)). rewrite length_drop in IH. lia.
  - specialize (IH (drop (k - 1) rest)). rewrite length_drop in IH. lia.
Qed.

(** X12: [to_string_lossy] never yields more characters than the name has bytes,
    and [to_str], when it accepts a name, neither. *)
Theorem to_string_lossy_length (s : string) :
  (length (to_string_lossy s) <= length (os_bytes s))%nat /\
  (forall t, to_str s = Some t -> (length t <= length (os_bytes s))%nat).
Proof.
  unfold to_string_lossy, to_str, decode. split.
  - rewrite length_map. apply utf8_chunks_length.
  - intros t Ht. apply mapM_id_default in Ht. rewrite <- Ht, length_map. apply utf8_chunks_length.
Qed.

(** ** Indentation is depth *)

Lemma print_children_depth (recur : path -> list bool -> option (list ustring))
    (M : DirectoryChildren) (fs : node) (p : path) (pre : list bool) (count i : nat)
    (cs : list DirEntry) (out : list ustring) :
  M !! p = Some cs ->
  (forall e, e ∈ cs -> parent (de_path e) = Some p) ->
  (forall e pre' o, e ∈ cs -> recur (de_path e) pre' = Some o -> Forall (depth_line M (de_path e) pre') o) ->
  forall cs', (forall e, e ∈ cs' -> e ∈ cs) ->
  print_children recur fs pre count i cs' = Some out -> Forall (depth_line M p pre) out.
Proof.
  intros Hp Hpar Hrec cs'. revert i out. induction cs' as [|e cs' IH]; intros i out Hsub H;
    cbn [print_children] in H.
  - injection H as <-. constructor.
  - assert (He : e ∈ cs) by (apply Hsub; by left).
    assert (Hsub' : forall e', e' ∈ cs' -> e' ∈ cs) by (intros e' He'; apply Hsub; by right).
    assert (Hlen : length (de_path e) = S (length p)) by (symmetry; apply parent_length, Hpar, He).
    assert (Hline : forall b rest,
              depth_line M p pre (render_prefix pre b ++ to_string_lossy (de_name e) ++ rest)).
    { intros b rest. exists p, cs, e, [], b, rest. rewrite app_nil_r. unfold render_prefix.
      rewrite <- app_assoc. repeat split; [done|done|]. cbn. lia. }
    destruct (is_dir_at fs (de_path e)).
    + destruct (recur _ _) as [sub|] eqn:Hs; cbn in H; [|done].
      destruct (print_children recur fs pre count (S i) cs') as [tl|] eqn:Ht; cbn in H; [|done].
      injection H as <-. constructor.
      * pose proof (Hline (Nat.eqb i (count - 1)) []) as X. rewrite app_nil_r in X. exact X.
      * apply Forall_app. split; [|by apply (IH (S i))].
        eapply Forall_impl; [exact (Hrec e _ _ He Hs)|].
        intros line (k & l & e' & bs & b & rest & Hk & He' & Hl & Hd).
        exists k, l, e', (Nat.eqb i (count - 1) :: bs), b, rest.
        rewrite <- app_assoc in Hl. cbn [app] in Hl. repeat split; [done|done|done|].
        rewrite Hd, Hlen. cbn [length]. lia.
    + destruct (print_children recur fs pre count (S i) cs') as [tl|] eqn:Ht; cbn in H; [|done].
      injection H as <-. constructor; [apply Hline|by apply (IH (S i))].
Qed.

Lemma print_tree_depth (fuel : nat) (fs : node) (M : DirectoryChildren) :
  (forall k l e, M !! k = Some l -> e ∈ l -> parent (de_path e) = Some k) ->
  forall p pre out, print_tree fuel fs M p pre = Some out -> Forall (depth_line M p pre) out.
Proof.
  intros Hpar. induction fuel as [|f IH]; intros p pre out H; cbn [print_tree] in H; [done|].
  destruct (M !! p) as [cs|] eqn:Hp; [|injection H as <-; constructor].
  eapply (print_children_depth _ M fs p pre _ 0 cs); [exact Hp| | |intros e He; exact He|exact H].
  - intros e He. exact (Hpar p cs e Hp He).
  - intros e pre' o _ Ho. exact (IH _ _ _ Ho).
Qed.

(** X14: every line [main] prints starts with one four-character unit per level
    of the entry below the target's children, then the branch marker, then the
    entry's name; the entry is one the walk yields.  So the indentation of a line
    is the depth of its entry below the target. *)
Theorem main_line_depth (to_lowercase : ustring -> ustring)
    (order : DirectoryChildren -> list path) (fs : node) (target : path) (out : list ustring) :
  main to_lowercase order fs (Some target) = Printed out ->
  Forall (fun line => exists e bs b rest,
            e ∈ oks (walk fs target) /\
            line = concat (map prefix_unit bs) ++ branch b ++ to_string_lossy (de_name e) ++ rest /\
            length (de_path e) = (length target + length bs + 1)%nat) out.
Proof.
  unfold main. intros H.
  destruct (collect_entries to_lowercase order fs target) as [M|] eqn:Hc; [|done].
  destruct (print_tree (print_fuel M) fs M target []) as [o|] eqn:Hp; [|done].
  injection H as <-.
  assert (Hpar : forall k l e, M !! k = Some l -> e ∈ l -> parent (de_path e) = Some k).
  { intros k l e Hk He. exact (proj2 (collect_entries_from_walk _ _ _ _ _ _ _ _ Hc Hk He)). }
  eapply Forall_impl; [exact (print_tree_depth _ fs M Hpar target [] o Hp)|].
  intros line (k & l & e & bs & b & rest & Hk & He & Hl & Hd).
  exists e, bs, b, rest. split; [exact (proj1 (collect_entries_from_walk _ _ _ _ _ _ _ _ Hc Hk He))|].
  split; [exact Hl|exact Hd].
Qed.

Lemma main_line_depth_witness :
  let fs := NDir "" (Some [NDir "r" (Some [NDir "a" (Some [NFile "x" (Some [Some (u "# x")])]);
                                          NFile "b" None])]) in
  exists out,
    main ascii_to_lowercase key_order fs (Some ["r"%string]) = Printed out /\
    Forall (fun line => exists e bs b rest,
              e ∈ oks (walk fs ["r"%string]) /\
              line = concat (map prefix_unit bs) ++ branch b ++ to_string_lossy (de_name e) ++ rest /\
              length (de_path e) = (length ["r"%string] + length bs + 1)%nat) out.
Proof.
  intros fs.
  set (out := match main ascii_to_lowercase key_order fs (Some ["r"%string]) with
              | Printed o => o | _ => [] end).
  assert (Hm : main ascii_to_lowercase key_order fs (Some ["r"%string]) = Printed out)
    by (vm_compute; reflexivity).
  exists out. split; [exact Hm|].
  exact (main_line_depth _ _ _ _ _ Hm).
Defined.
